(** * The routing tree of package [web] (route.go)

    A router keeps one prefix tree per HTTP method.  [addRoute] walks the
    tree segment by segment, creating the missing nodes through
    [childOrCreate], and attaches the handler to the last node.  Go panics
    are modelled by an explicit outcome; Go pointers to nodes are modelled by
    the slot of the parent that holds the child, so that a mutation through
    the pointer is a functional update written back along the walked path. *)

From stdpp Require Import gmap strings list fin_maps.
From Stdlib Require Import String Ascii.

#[local] Open Scope string_scope.
#[local] Open Scope list_scope.
#[local] Set Warnings "-register-all".

(** ** Byte strings

    A Go string is a sequence of bytes, here a [string] of [ascii]. *)

Module Str.

(** [path[1:]]; only used on non-empty strings. *)
Definition tail (s : string) : string :=
  match s with
  | EmptyString => EmptyString
  | String _ t => t
  end.

(** [path[0]] *)
Definition first (s : string) : option ascii :=
  match s with
  | EmptyString => None
  | String c _ => Some c
  end.

(** [path[len(path)-1]] *)
Fixpoint last (s : string) : option ascii :=
  match s with
  | EmptyString => None
  | String c EmptyString => Some c
  | String _ t => last t
  end.

Definition is_char (c : ascii) (o : option ascii) : bool :=
  match o with
  | Some d => Ascii.eqb d c
  | None => false
  end.

(** [strings.Split(s, "/")]: the text between consecutive separators; the
    empty string splits into one empty piece. *)
Fixpoint split (sep : ascii) (s : string) : list string :=
  match s with
  | EmptyString => [EmptyString]
  | String c t =>
      if Ascii.eqb c sep then EmptyString :: split sep t
      else match split sep t with
           | x :: xs => String c x :: xs
           | [] => [String c EmptyString]
           end
  end.

Fixpoint has_char (c : ascii) (s : string) : bool :=
  match s with
  | EmptyString => false
  | String d t => Ascii.eqb d c || has_char c t
  end.

(** Some ["("] of [s] is followed by at least two more bytes. *)
Fixpoint paren_then_two (s : string) : bool :=
  match s with
  | EmptyString => false
  | String c t =>
      (Ascii.eqb c "(" && Nat.leb 2 (String.length t)) || paren_then_two t
  end.

End Str.

(** [regexp.MatchString("^:.+\\(.+\\)$", path)].  In Go's syntax [.] is any
    character but a line feed and [$] is the end of the text, so the pattern
    accepts exactly the texts [":" name "(" expr ")"] whose [name] and [expr]
    are non-empty and free of line feeds. *)
Definition matchRegShape (path : string) : bool :=
  match path with
  | String ":" (String c rest) =>
      negb (Str.has_char "010" (String c rest))
      && Str.is_char ")" (Str.last rest)
      && Str.paren_then_two rest
  | _ => false
  end.
Arguments matchRegShape : simpl never.

(** [idx := strings.Index(path, "(")] then [path[1:idx]].  The slices are
    taken only of texts of the regex shape, where an opening parenthesis is
    found and both slices are within bounds ([regex_slices_in_range]). *)
Definition regParamName (path : string) : string :=
  match String.index 0 "(" path with
  | Some idx => String.substring 1 (idx - 1) path
  | None => EmptyString
  end.

(** [path[idx+1 : len(path)-1]] *)
Definition regExprText (path : string) : string :=
  match String.index 0 "(" path with
  | Some idx => String.substring (idx + 1) (String.length path - 1 - (idx + 1)) path
  | None => EmptyString
  end.

(** ** Panics

    Every [panic] site of route.go, with the values its message formats. *)
Inductive panicMsg : Type :=
  | EmptyRoute                                   (* "web: 路由是空字符串" *)
  | NoLeadingSlash                               (* "web: 路由必须以 / 开头" *)
  | TrailingSlash                                (* "web: 路由不能以 / 结尾" *)
  | IllegalRoute (path : string)                 (* "... 不允许使用 //a/b, /a//b ..." *)
  | RootConflict                                 (* "web: 路由冲突[/]" *)
  | RouteConflict (path : string)                (* "web: 路由冲突[%s]" *)
  | StarHasReg                                   (* "*" against a regex child *)
  | StarHasParam                                 (* "*" against a param child *)
  | RegHasParam (path : string)
  | RegHasStar (path : string)
  | RegConflict (old new : string)
  | ParamHasReg (path : string)
  | ParamHasStar (path : string)
  | ParamConflict (old new : string)
  | IndexOutOfRange                              (* runtime: path[0] on the empty string *)
  | NotImplemented.                              (* "implement me" *)

(** The two error classes of the specification. *)
Definition isValidationError (e : panicMsg) : bool :=
  match e with
  | EmptyRoute | NoLeadingSlash | TrailingSlash | IllegalRoute _ => true
  | _ => false
  end.

Definition isConflictError (e : panicMsg) : bool :=
  match e with
  | RootConflict | RouteConflict _
  | StarHasReg | StarHasParam
  | RegHasParam _ | RegHasStar _ | RegConflict _ _
  | ParamHasReg _ | ParamHasStar _ | ParamConflict _ _ => true
  | _ => false
  end.

Inductive outcome (A : Type) : Type :=
  | Done (a : A)
  | Panicked (e : panicMsg).
Arguments Done {A} a.
Arguments Panicked {A} e.

Inductive nodeType : Type :=
  | nodeTypeStatic
  | nodeTypeReg
  | nodeTypeParam
  | nodeTypeAny.

(** The place of a child inside its parent: what a [*node] returned by
    [childOrCreate] points to. *)
Inductive slot : Type :=
  | SlotStar
  | SlotReg
  | SlotParam
  | SlotStatic (key : string).

#[global] Instance slot_eq_dec : EqDecision slot.
Proof. solve_decision. Defined.

(** ** What route.go takes from outside

    [HandleFunc] is declared elsewhere in the package and [Regexp] is
    [regexp.Regexp]; a [nil] of either is [None].  [compile] is
    [regexp.Compile] with its error dropped: [None] is the [nil] pattern
    returned next to a non-nil error. *)
Class Externals : Type := {
  HandleFunc : Type;
  Regexp : Type;
  compile : string -> option Regexp
}.

Section Router.

Context `{ext : Externals}.

Inductive node : Type := Node {
  typ : nodeType;
  path : string;
  children : option (gmap string node);
  handler : option HandleFunc;
  starChild : option node;
  paramChild : option node;
  paramName : string;
  regChild : option node;
  regExpr : option Regexp
}.

(** [p != nil] *)
Definition notNil {A : Type} (p : option A) : bool :=
  match p with
  | Some _ => true
  | None => false
  end.

(** [&node{path: p, typ: t}] *)
Definition newNode (t : nodeType) (p : string) : node :=
  Node t p None None None None EmptyString None None.

Definition set_handler (n : node) (h : option HandleFunc) : node :=
  Node (typ n) (path n) (children n) h (starChild n) (paramChild n)
       (paramName n) (regChild n) (regExpr n).

Definition set_children (n : node) (m : option (gmap string node)) : node :=
  Node (typ n) (path n) m (handler n) (starChild n) (paramChild n)
       (paramName n) (regChild n) (regExpr n).

Definition set_starChild (n : node) (c : option node) : node :=
  Node (typ n) (path n) (children n) (handler n) c (paramChild n)
       (paramName n) (regChild n) (regExpr n).

Definition set_paramChild (n : node) (c : option node) : node :=
  Node (typ n) (path n) (children n) (handler n) (starChild n) c
       (paramName n) (regChild n) (regExpr n).

Definition set_regChild (n : node) (c : option node) : node :=
  Node (typ n) (path n) (children n) (handler n) (starChild n) (paramChild n)
       (paramName n) c (regExpr n).

(** Reading and writing through a child pointer. *)
Definition getChild (n : node) (sl : slot) : option node :=
  match sl with
  | SlotStar => starChild n
  | SlotReg => regChild n
  | SlotParam => paramChild n
  | SlotStatic k => default ∅ (children n) !! k
  end.

Definition setChild (n : node) (sl : slot) (c : node) : node :=
  match sl with
  | SlotStar => set_starChild n (Some c)
  | SlotReg => set_regChild n (Some c)
  | SlotParam => set_paramChild n (Some c)
  | SlotStatic k => set_children n (Some (<[k := c]> (default ∅ (children n))))
  end.

(** [childOrCreate]: the node after the call, the slot of the returned child
    and the child itself.  Every panic is raised before the first write, so a
    panicking call leaves [n] as it was. *)
Definition childOrCreate (n : node) (p : string)
  : outcome (node * slot * node) :=
  if String.eqb p "*" then
    match starChild n with
    | Some c => Done (n, SlotStar, c)
    | None =>
        if notNil (regChild n) then Panicked StarHasReg
        else if notNil (paramChild n) then Panicked StarHasParam
        else let c := newNode nodeTypeAny "*" in
             Done (set_starChild n (Some c), SlotStar, c)
    end
  else
    match Str.first p with
    | None => Panicked IndexOutOfRange
    | Some c0 =>
        if Ascii.eqb c0 ":" then
          if matchRegShape p then
            if notNil (paramChild n) then Panicked (RegHasParam p)
            else if notNil (starChild n) then Panicked (RegHasStar p)
            else match regChild n with
                 | Some c =>
                     if negb (String.eqb (path c) p)
                     then Panicked (RegConflict (path c) p)
                     else Done (n, SlotReg, c)
                 | None =>
                     let c := Node nodeTypeReg p None None None None
                                   (regParamName p) None
                                   (compile (regExprText p)) in
                     Done (set_regChild n (Some c), SlotReg, c)
                 end
          else
            if notNil (regChild n) then Panicked (ParamHasReg p)
            else if notNil (starChild n) then Panicked (ParamHasStar p)
            else match paramChild n with
                 | Some c =>
                     if negb (String.eqb (path c) p)
                     then Panicked (ParamConflict (path c) p)
                     else Done (n, SlotParam, c)
                 | None =>
                     let c := Node nodeTypeParam p None None None None
                                   (Str.tail p) None None in
                     Done (set_paramChild n (Some c), SlotParam, c)
                 end
        else
          let m := default ∅ (children n) in
          match m !! p with
          | Some c => Done (set_children n (Some m), SlotStatic p, c)
          | None =>
              let c := newNode nodeTypeStatic p in
              Done (set_children n (Some (<[p := c]> m)), SlotStatic p, c)
          end
    end.

(** The loop of [addRoute] over [seqs] followed by the final handler check.
    The Go code moves the pointer [root] down the tree and writes through it;
    here each level returns its node after the writes made below it.  A panic
    stops the walk and keeps what was written before it. *)
Fixpoint register (fullPath : string) (root : node) (seqs : list string)
    (h : option HandleFunc) : node * outcome unit :=
  match seqs with
  | [] =>
      if notNil (handler root) then (root, Panicked (RouteConflict fullPath))
      else (set_handler root h, Done tt)
  | s :: rest =>
      if String.eqb s EmptyString then (root, Panicked (IllegalRoute fullPath))
      else match childOrCreate root s with
           | Panicked e => (root, Panicked e)
           | Done (root', sl, c) =>
               let (c', o) := register fullPath c rest h in
               (setChild root' sl c', o)
           end
  end.

(** [trees] 是按照 HTTP 方法来组织的; the map is the one made by [newRouter],
    never the nil map. *)
Record router : Type := Router { trees : gmap string node }.

Definition newRouter : router := Router ∅.

(** [addRoute]: the router after the call (also after a panic) and whether the
    call returned or panicked.  The handler is a Go func value and may be
    [nil]. *)
Definition addRoute (r : router) (method : string) (p : string)
    (h : option HandleFunc) : router * outcome unit :=
  if String.eqb p EmptyString then (r, Panicked EmptyRoute)
  else if negb (Str.is_char "/" (Str.first p)) then (r, Panicked NoLeadingSlash)
  else if negb (String.eqb p "/") && Str.is_char "/" (Str.last p)
  then (r, Panicked TrailingSlash)
  else
    let root := default (newNode nodeTypeStatic "/") (trees r !! method) in
    let r1 := match trees r !! method with
              | Some _ => r
              | None => Router (<[method := root]> (trees r))
              end in
    if String.eqb p "/" then
      if notNil (handler root) then (r1, Panicked RootConflict)
      else (Router (<[method := set_handler root h]> (trees r1)), Done tt)
    else
      let (root', o) := register p root (Str.split "/" (Str.tail p)) h in
      (Router (<[method := root']> (trees r1)), o).

Record matchInfo : Type := MatchInfo {
  mi_n : node;                                   (* field [n] *)
  pathParams : option (gmap string string)
}.

Definition addValue (m : matchInfo) (key value : string) : matchInfo :=
  let m1 := match pathParams m with
            | None => MatchInfo (mi_n m) (Some {[ key := value ]})
            | Some _ => m
            end in
  MatchInfo (mi_n m1) (Some (<[key := value]> (default ∅ (pathParams m1)))).

(** [findRoute] as route.go has it: the body is [panic("implement me")], so
    no call returns its pair of a [*matchInfo] and the found flag. *)
Definition findRoute (r : router) (method p : string)
  : outcome (option matchInfo * bool) := Panicked NotImplemented.

(** [childOf], likewise [panic("implement me")]. *)
Definition childOf (n : node) (p : string) : outcome (option node * bool) :=
  Panicked NotImplemented.

(** ** Positions and invariants *)

(** The node reached from [n] through a sequence of child slots. *)
Fixpoint descend (n : node) (sls : list slot) : option node :=
  match sls with
  | [] => Some n
  | sl :: rest =>
      match getChild n sl with
      | Some c => descend c rest
      | None => None
      end
  end.

(** [P] holds of every node of the tree rooted at [n]. *)
Definition AllNodes (P : node -> Prop) (n : node) : Prop :=
  forall sls x, descend n sls = Some x -> P x.

(** [P] holds of every node of every method's tree. *)
Definition AllRouterNodes (P : node -> Prop) (r : router) : Prop :=
  forall method root, trees r !! method = Some root -> AllNodes P root.

(** Invariant I1: at most one of the three non-static children is present. *)
Definition exclusive (n : node) : bool :=
  match starChild n, regChild n, paramChild n with
  | Some _, Some _, _ | Some _, _, Some _ | _, Some _, Some _ => false
  | _, _, _ => true
  end.

(** The slot a raw segment is resolved to, in the order of [childOrCreate]:
    ["*"], then [":name(expr)"], then [":name"], then a literal. *)
Definition slotOf (seg : string) : slot :=
  if String.eqb seg "*" then SlotStar
  else if Str.is_char ":" (Str.first seg) then
    if matchRegShape seg then SlotReg else SlotParam
  else SlotStatic seg.

(** The node [childOrCreate] allocates for a segment that has no child yet. *)
Definition freshChild (seg : string) : node :=
  match slotOf seg with
  | SlotStar => newNode nodeTypeAny "*"
  | SlotReg => Node nodeTypeReg seg None None None None
                    (regParamName seg) None (compile (regExprText seg))
  | SlotParam => Node nodeTypeParam seg None None None None
                      (Str.tail seg) None None
  | SlotStatic _ => newNode nodeTypeStatic seg
  end.

(** The three slots that hold at most one child: wildcard, regex, param. *)
Definition isDynamic (sl : slot) : bool :=
  match sl with
  | SlotStatic _ => false
  | _ => true
  end.

(** The child a segment resolves to at [n]: the one already in its slot, or
    else a new node. *)
Definition childFor (n : node) (seg : string) : node :=
  default (freshChild seg) (getChild n (slotOf seg)).

(** The guards of [childOrCreate], read off its panic sites: whether the
    segment can be resolved at [n] without a conflict. *)
Definition clashFree (n : node) (seg : string) : bool :=
  match slotOf seg with
  | SlotStar =>
      notNil (starChild n)
      || (negb (notNil (regChild n)) && negb (notNil (paramChild n)))
  | SlotReg =>
      negb (notNil (paramChild n)) && negb (notNil (starChild n))
      && match regChild n with
         | Some c => String.eqb (path c) seg
         | None => true
         end
  | SlotParam =>
      negb (notNil (regChild n)) && negb (notNil (starChild n))
      && match paramChild n with
         | Some c => String.eqb (path c) seg
         | None => true
         end
  | SlotStatic _ => true
  end.

(** The fields of a node that are fixed when it is allocated. *)
Definition sameHeader (a b : node) : Prop :=
  path a = path b /\ typ a = typ b /\ paramName a = paramName b /\
  regExpr a = regExpr b.

(** What the children of a node built by [childOrCreate] look like: each sits
    in the slot its own segment text resolves to and carries the fields set
    at its creation. *)
Definition childrenOk (n : node) : Prop :=
  forall sl c, getChild n sl = Some c ->
    slotOf (path c) = sl /\ path c <> EmptyString /\
    typ c = typ (freshChild (path c)) /\
    paramName c = paramName (freshChild (path c)) /\
    regExpr c = regExpr (freshChild (path c)).

Definition nodeOk (n : node) : Prop :=
  exclusive n = true /\ childrenOk n.

(** The three guards at the head of [addRoute] all pass. *)
Definition wellShaped (p : string) : bool :=
  negb (String.eqb p EmptyString)
  && Str.is_char "/" (Str.first p)
  && negb (negb (String.eqb p "/") && Str.is_char "/" (Str.last p)).

(** The panic of the first guard that fails. *)
Definition shapeError (p : string) : panicMsg :=
  if String.eqb p EmptyString then EmptyRoute
  else if negb (Str.is_char "/" (Str.first p)) then NoLeadingSlash
  else TrailingSlash.

(** [strings.Split(path[1:], "/")] *)
Definition segments (p : string) : list string :=
  Str.split "/" (Str.tail p).

(** The root [addRoute] works on: the method's tree, or a new root. *)
Definition rootOf (r : router) (method : string) : node :=
  default (newNode nodeTypeStatic "/") (trees r !! method).

(** The node at a position of a method's tree, and its handler. *)
Definition nodeAt (r : router) (method : string) (sls : list slot)
  : option node :=
  match trees r !! method with
  | Some root => descend root sls
  | None => None
  end.

Definition handlerAt (r : router) (method : string) (sls : list slot)
  : option HandleFunc :=
  match nodeAt r method sls with
  | Some x => handler x
  | None => None
  end.

(** The paths the documentation of [addRoute] rules out: empty, without a
    leading slash, with a trailing slash (the root path apart), or with an
    empty segment between two slashes. *)
Definition invalidPath (p : string) : bool :=
  negb (wellShaped p)
  || (negb (String.eqb p "/")
      && existsb (fun seg => String.eqb seg EmptyString) (segments p)).

(** Routers obtained from [newRouter] by calls of [addRoute] that return. *)
Inductive built : router -> Prop :=
  | built_new : built newRouter
  | built_add r method p h r' :
      built r -> addRoute r method p h = (r', Done tt) -> built r'.

(** Routers obtained from [newRouter] by any calls of [addRoute], the
    panicking ones (recovered by the caller) included. *)
Inductive reachable : router -> Prop :=
  | reachable_new : reachable newRouter
  | reachable_add r method p h :
      reachable r -> reachable (fst (addRoute r method p h)).

End Router.

(** ** A concrete instance

    Handlers are numbered.  The expression compiler is the one for literal
    expressions: an expression without an opening parenthesis compiles to
    itself; an expression with an opening parenthesis is taken as ill formed
    (as ["a(b"] is for [regexp.Compile]). *)

Definition literalCompile (expr : string) : option string :=
  if Str.has_char "(" expr then None else Some expr.

#[global] Instance literalExternals : Externals := {|
  HandleFunc := nat;
  Regexp := string;
  compile := literalCompile
|}.

Definition route (r : router) (method p : string) (h : nat)
  : router * outcome unit :=
  addRoute r method p (Some h).

Definition emptyNode : node := newNode nodeTypeStatic "/".

(** ** Positions of routes *)

(** The call returned. *)
Definition isDone {A : Type} (o : outcome A) : bool :=
  match o with
  | Done _ => true
  | Panicked _ => false
  end.

Section Positions.

Context `{ext : Externals}.

(** The segments [addRoute] walks: none for the root path, which is settled
    on the root itself before the split. *)
Definition walkOf (p : string) : list string :=
  if String.eqb p "/" then [] else segments p.

(** Where the handler of a route goes: the slots of its segments, from the
    root down. *)
Definition positionOf (p : string) : list slot := slotOf <$> walkOf p.

(** The handler found below [n] along a sequence of slots; [None] when there
    is no such node or it has no handler. *)
Definition handlerIn (n : node) (sls : list slot) : option HandleFunc :=
  match descend n sls with
  | Some x => handler x
  | None => None
  end.

(** A node as [childOrCreate] and [addRoute] allocate it: no child, no
    handler. *)
Definition bare (n : node) : Prop :=
  (forall sl, getChild n sl = None) /\ handler n = None.

(** What holds of a child in a tree made by [addRoute], slot by slot. *)
Definition childShape (sl : slot) (c : node) : Prop :=
  match sl with
  | SlotStatic key =>
      path c = key /\ typ c = nodeTypeStatic /\ regExpr c = None /\
      key <> EmptyString /\ key <> "*" /\ Str.first key <> Some ":"%char
  | SlotStar => path c = "*" /\ typ c = nodeTypeAny /\ regExpr c = None
  | SlotParam =>
      typ c = nodeTypeParam /\ Str.first (path c) = Some ":"%char /\
      matchRegShape (path c) = false /\
      paramName c = Str.tail (path c) /\ regExpr c = None
  | SlotReg =>
      typ c = nodeTypeReg /\ matchRegShape (path c) = true /\
      paramName c = regParamName (path c) /\
      regExpr c = compile (regExprText (path c))
  end.

End Positions.

(** ** The request context (the second file of the package)

    [Request] is an [http.Request] and [urlQuery] its [URL.Query()], [None]
    when the [URL] is [nil]; a parsed query is never the [nil] map.
    [parseInt] is [strconv.ParseInt(s, 10, 64)], with [None] for the [nil]
    error. *)
Class ContextExternals : Type := {
  Request : Type;
  ResponseWriter : Type;
  urlQuery : Request -> option (gmap string (list string));
  NumError : Type;
  parseInt : string -> Z * option NumError
}.

(** Runtime panics of the context code. *)
Inductive runtimePanic : Type :=
  | NilDereference                               (* [c.Req] or its [URL] is nil *)
  | SliceIndex.                                  (* [vals[0]] on an empty slice *)

Section ContextDefs.

Context `{cext : ContextExternals}.

(** The errors made by [errors.New] in the file, and the one handed back by
    [strconv.ParseInt]. *)
Inductive webError : Type :=
  | ErrBodyNil                                   (* "web: body is nil" *)
  | ErrQueryKey                                  (* "web, 找不到这个key" *)
  | ErrPathKey                                   (* "web: 找不到这个key" *)
  | ErrParse (e : NumError).

Record StringValue : Type := mkStringValue {
  val : string;
  err : option webError
}.

(** [func (s StringValue) String() (string, error)] *)
Definition StringValue_String (s : StringValue) : string * option webError :=
  (val s, err s).

Definition ToInt64 (s : StringValue) : Z * option webError :=
  match err s with
  | Some e => (0%Z, Some e)
  | None => let (z, e) := parseInt (val s) in (z, ErrParse <$> e)
  end.

Record Context : Type := mkContext {
  Req : option Request;
  Resp : option ResponseWriter;
  PathParams : option (gmap string string);
  cacheQueryValues : option (gmap string (list string))
}.

Definition set_Req (c : Context) (rq : option Request) : Context :=
  mkContext rq (Resp c) (PathParams c) (cacheQueryValues c).

Definition set_cacheQueryValues (c : Context)
    (vs : option (gmap string (list string))) : Context :=
  mkContext (Req c) (Resp c) (PathParams c) vs.

(** The second half of [QueryValue]: [vals, ok := c.cacheQueryValues[key]]
    and what follows. *)
Definition lookupQuery (vs : gmap string (list string)) (key : string)
  : runtimePanic + StringValue :=
  match vs !! key with
  | None => inr (mkStringValue EmptyString (Some ErrQueryKey))
  | Some [] => inl SliceIndex
  | Some (v :: _) => inr (mkStringValue v None)
  end.

(** [QueryValue]: the context after the call (the cache may have been
    filled) and the value, or the runtime panic. *)
Definition QueryValue (c : Context) (key : string)
  : Context * (runtimePanic + StringValue) :=
  match cacheQueryValues c with
  | Some vs => (c, lookupQuery vs key)
  | None =>
      match Req c with
      | None => (c, inl NilDereference)
      | Some rq =>
          match urlQuery rq with
          | None => (c, inl NilDereference)
          | Some vs => (set_cacheQueryValues c (Some vs), lookupQuery vs key)
          end
      end
  end.

(** [PathValue]; reading the [nil] map finds nothing. *)
Definition PathValue (c : Context) (key : string) : StringValue :=
  match default ∅ (PathParams c) !! key with
  | None => mkStringValue EmptyString (Some ErrPathKey)
  | Some v => mkStringValue v None
  end.

End ContextDefs.

(** A concrete context: requests are their parsed queries, and [parseInt]
    reads unsigned decimal numerals of at most three digits (enough to run
    the code on small inputs). *)
Definition digitValue (c : ascii) : option Z :=
  let n := nat_of_ascii c in
  if (48 <=? n)%nat && (n <=? 57)%nat then Some (Z.of_nat (n - 48)) else None.

Definition smallParseInt (s : string) : Z * option unit :=
  match s with
  | String a EmptyString =>
      match digitValue a with
      | Some x => (x, None)
      | None => (0%Z, Some tt)
      end
  | String a (String b EmptyString) =>
      match digitValue a, digitValue b with
      | Some x, Some y => ((10 * x + y)%Z, None)
      | _, _ => (0%Z, Some tt)
      end
  | String a (String b (String c EmptyString)) =>
      match digitValue a, digitValue b, digitValue c with
      | Some x, Some y, Some z => ((100 * x + 10 * y + z)%Z, None)
      | _, _, _ => (0%Z, Some tt)
      end
  | _ => (0%Z, Some tt)
  end.

#[global] Instance literalContextExternals : ContextExternals := {|
  Request := gmap string (list string);
  ResponseWriter := unit;
  urlQuery := fun rq => Some rq;
  NumError := unit;
  parseInt := smallParseInt
|}.

(** * Properties *)

Section RouterFacts.

Context `{ext : Externals}.

(** ** Reading and writing child slots *)

Lemma getChild_set_handler (n : node) h sl :
  getChild (set_handler n h) sl = getChild n sl.
Proof. by destruct sl. Qed.

Lemma getChild_setChild_eq (n : node) sl c :
  getChild (setChild n sl c) sl = Some c.
Proof. destruct sl; simpl; try done. apply lookup_insert_eq. Qed.

Lemma getChild_setChild_ne (n : node) sl sl' c :
  sl <> sl' -> getChild (setChild n sl c) sl' = getChild n sl'.
Proof.
  intros Hne. destruct sl, sl'; simpl; try done.
  apply lookup_insert_ne. congruence.
Qed.

Lemma setChild_id (n : node) sl c :
  getChild n sl = Some c -> setChild n sl c = n.
Proof.
  destruct n as [t p ch h sc pc pn rc re], sl; simpl; intros Hc;
    unfold set_starChild, set_regChild, set_paramChild, set_children; simpl;
    try (by rewrite Hc).
  destruct ch as [m|]; simpl in *.
  - by rewrite insert_id.
  - by rewrite lookup_empty in Hc.
Qed.

Lemma setChild_setChild (n : node) sl c c' :
  setChild (setChild n sl c) sl c' = setChild n sl c'.
Proof.
  destruct sl; simpl; try done.
  unfold set_children; simpl. by rewrite insert_insert_eq.
Qed.

Lemma descend_nil_children (n : node) sls x :
  (forall sl, getChild n sl = None) ->
  descend n sls = Some x -> sls = [] /\ x = n.
Proof.
  intros Hleaf. destruct sls as [|sl rest]; simpl.
  - intros [= <-]. done.
  - by rewrite Hleaf.
Qed.

(** ** Classification of segments *)

Lemma slotOf_star seg : slotOf seg = SlotStar <-> seg = "*".
Proof.
  unfold slotOf. destruct (String.eqb_spec seg "*") as [->|Hne].
  - done.
  - split; [|done]. by repeat case_match.
Qed.

Lemma slotOf_static seg k : slotOf seg = SlotStatic k -> k = seg.
Proof. unfold slotOf. repeat case_match; congruence. Qed.

Lemma path_freshChild seg : seg <> EmptyString -> path (freshChild seg) = seg.
Proof.
  intros _. unfold freshChild.
  destruct (slotOf seg) eqn:Hs; simpl; try done.
  symmetry. by apply slotOf_star.
Qed.

Lemma getChild_freshChild seg sl : getChild (freshChild seg) sl = None.
Proof.
  unfold freshChild. destruct (slotOf seg), sl; simpl; try done;
    apply lookup_empty.
Qed.

Lemma handler_freshChild seg : handler (freshChild seg) = None.
Proof. unfold freshChild. by destruct (slotOf seg). Qed.

(** ** What [childOrCreate] does *)

(** A call that returns resolves the segment to the slot of its kind, hands
    back the child already there or else a new one, and writes nothing
    else. *)
Lemma childOrCreate_Done (n : node) seg n1 sl c :
  childOrCreate n seg = Done (n1, sl, c) ->
  seg <> EmptyString /\ sl = slotOf seg /\
  c = default (freshChild seg) (getChild n sl) /\
  n1 = setChild n sl c.
Proof.
  unfold childOrCreate, freshChild, slotOf, Str.is_char.
  destruct (String.eqb_spec seg "*") as [->|Hne].
  { destruct n as [t p ch h sc pc pn rc re]; simpl.
    destruct sc, rc, pc; simpl; intros; by simplify_eq. }
  destruct (Str.first seg) as [c0|] eqn:Hfirst; [|done].
  assert (seg <> EmptyString) as Hseg by (by destruct seg).
  destruct (Ascii.eqb c0 ":"), (matchRegShape seg);
    destruct n as [t p ch h sc pc pn rc re]; simpl.
  - destruct pc, sc, rc; simpl; try done.
    + case_match; [done|]. intros; by simplify_eq.
    + intros; by simplify_eq.
  - destruct rc, sc, pc; simpl; try done.
    + case_match; [done|]. intros; by simplify_eq.
    + intros; by simplify_eq.
  - destruct (default ∅ ch !! seg) eqn:Hl; intros; simplify_eq;
      simpl; rewrite Hl; repeat split; try done.
    unfold set_children; simpl. by rewrite insert_id.
  - destruct (default ∅ ch !! seg) eqn:Hl; intros; simplify_eq;
      simpl; rewrite Hl; repeat split; try done.
    unfold set_children; simpl. by rewrite insert_id.
Qed.

Lemma childOrCreate_clashFree (n : node) seg :
  seg <> EmptyString -> clashFree n seg = true ->
  childOrCreate n seg
  = Done (setChild n (slotOf seg) (childFor n seg), slotOf seg, childFor n seg).
Proof.
  intros Hseg. unfold clashFree, childFor, childOrCreate, freshChild, slotOf,
    Str.is_char.
  destruct (String.eqb_spec seg "*") as [->|Hne].
  { destruct n as [t p ch h sc pc pn rc re]; simpl.
    destruct sc, rc, pc; simpl; intros; by simplify_eq. }
  destruct (Str.first seg) as [c0|] eqn:Hfirst; [|by destruct seg].
  destruct (Ascii.eqb c0 ":"), (matchRegShape seg);
    destruct n as [t p ch h sc pc pn rc re]; simpl.
  - destruct pc, sc, rc; simpl; try done. by intros ->.
  - destruct rc, sc, pc; simpl; try done. by intros ->.
  - intros _. destruct (default ∅ ch !! seg) eqn:Hl; simpl; [|done].
    unfold set_children; simpl. by rewrite insert_id.
  - intros _. destruct (default ∅ ch !! seg) eqn:Hl; simpl; [|done].
    unfold set_children; simpl. by rewrite insert_id.
Qed.

Lemma childOrCreate_clash (n : node) seg :
  seg <> EmptyString -> clashFree n seg = false ->
  exists e, childOrCreate n seg = Panicked e /\ isConflictError e = true.
Proof.
  intros Hseg. unfold clashFree, childOrCreate, slotOf, Str.is_char.
  destruct (String.eqb_spec seg "*") as [->|Hne].
  { destruct (starChild n), (regChild n), (paramChild n); simpl;
      try done; eauto. }
  destruct (Str.first seg) as [c0|] eqn:Hfirst; [|by destruct seg].
  destruct (Ascii.eqb c0 ":"), (matchRegShape seg); try done.
  - destruct (paramChild n), (starChild n), (regChild n); simpl;
      try done; eauto.
    intros ->. simpl. eauto.
  - destruct (regChild n), (starChild n), (paramChild n); simpl;
      try done; eauto.
    intros ->. simpl. eauto.
Qed.

Lemma childOrCreate_Done_clashFree (n : node) seg n1 sl c :
  childOrCreate n seg = Done (n1, sl, c) -> clashFree n seg = true.
Proof.
  intros Hd. destruct (childOrCreate_Done _ _ _ _ _ Hd) as (Hseg & _).
  destruct (clashFree n seg) eqn:Hcf; [done|].
  destruct (childOrCreate_clash n seg Hseg Hcf) as (e & He & _). congruence.
Qed.

Lemma childOrCreate_Panicked (n : node) seg e :
  childOrCreate n seg = Panicked e ->
  (seg = EmptyString /\ e = IndexOutOfRange)
  \/ (seg <> EmptyString /\ clashFree n seg = false /\ isConflictError e = true).
Proof.
  intros Hp. destruct (String.eqb_spec seg EmptyString) as [->|Hseg].
  - left. split; [done|]. unfold childOrCreate in Hp. simpl in Hp. congruence.
  - right. destruct (clashFree n seg) eqn:Hcf.
    + rewrite (childOrCreate_clashFree n seg Hseg Hcf) in Hp. done.
    + destruct (childOrCreate_clash n seg Hseg Hcf) as (e' & He' & Hc).
      split; [done|]. split; [done|]. congruence.
Qed.

(** ** The walk of [addRoute], one segment at a time *)

Lemma register_nil fullPath (n : node) h :
  register fullPath n [] h
  = if notNil (handler n) then (n, Panicked (RouteConflict fullPath))
    else (set_handler n h, Done tt).
Proof. done. Qed.

Lemma register_cons_empty fullPath (n : node) rest h :
  register fullPath n (EmptyString :: rest) h
  = (n, Panicked (IllegalRoute fullPath)).
Proof. done. Qed.

Lemma register_cons_ok fullPath (n : node) seg rest h :
  seg <> EmptyString -> clashFree n seg = true ->
  register fullPath n (seg :: rest) h
  = (setChild n (slotOf seg) (register fullPath (childFor n seg) rest h).1,
     (register fullPath (childFor n seg) rest h).2).
Proof.
  intros Hseg Hcf. simpl.
  destruct (String.eqb_spec seg EmptyString) as [|_]; [done|].
  rewrite (childOrCreate_clashFree n seg Hseg Hcf).
  destruct (register fullPath (childFor n seg) rest h) as [c' o]; simpl.
  by rewrite setChild_setChild.
Qed.

Lemma register_cons_clash fullPath (n : node) seg rest h :
  seg <> EmptyString -> clashFree n seg = false ->
  exists e, register fullPath n (seg :: rest) h = (n, Panicked e)
            /\ isConflictError e = true.
Proof.
  intros Hseg Hcf. simpl.
  destruct (String.eqb_spec seg EmptyString) as [|_]; [done|].
  destruct (childOrCreate_clash n seg Hseg Hcf) as (e & -> & He). eauto.
Qed.

(** [addRoute] by cases: a guard fails, the path is the root, or the
    segments are walked. *)
Lemma addRoute_eq (r : router) method p h :
  addRoute r method p h
  = if negb (wellShaped p) then (r, Panicked (shapeError p))
    else if String.eqb p "/" then
      if notNil (handler (rootOf r method)) then (r, Panicked RootConflict)
      else (Router (<[method := set_handler (rootOf r method) h]> (trees r)),
            Done tt)
    else
      (Router (<[method := (register p (rootOf r method) (segments p) h).1]>
                 (trees r)),
       (register p (rootOf r method) (segments p) h).2).
Proof.
  unfold addRoute, wellShaped, shapeError, rootOf, segments.
  destruct (String.eqb p EmptyString); [done|].
  destruct (Str.is_char "/" (Str.first p)); [|done]. simpl.
  destruct (negb (String.eqb p "/") && Str.is_char "/" (Str.last p)); [done|].
  simpl. destruct r as [ts]; simpl.
  destruct (ts !! method) as [root|] eqn:Hroot; simpl.
  - destruct (String.eqb p "/"); [done|].
    by destruct (register p root _ h).
  - destruct (String.eqb p "/").
    + by rewrite insert_insert_eq.
    + destruct (register p _ _ h). simpl. by rewrite insert_insert_eq.
Qed.

(** ** Invariants of the tree *)

Lemma sameHeader_setChild (n : node) sl c : sameHeader n (setChild n sl c).
Proof. by destruct sl. Qed.

Lemma register_sameHeader fullPath segs (n : node) h :
  sameHeader n (register fullPath n segs h).1.
Proof.
  destruct segs as [|seg rest].
  - rewrite register_nil. by destruct (notNil (handler n)).
  - destruct (String.eqb_spec seg EmptyString) as [->|Hseg]; [done|].
    destruct (clashFree n seg) eqn:Hcf.
    + rewrite register_cons_ok by done. apply sameHeader_setChild.
    + by destruct (register_cons_clash fullPath n seg rest h Hseg Hcf)
        as (e & -> & _).
Qed.

Lemma handler_setChild (n : node) sl c : handler (setChild n sl c) = handler n.
Proof. by destruct sl. Qed.

Lemma AllNodes_here (P : node -> Prop) (n : node) : AllNodes P n -> P n.
Proof. intros Hall. by apply (Hall []). Qed.

Lemma AllNodes_child (P : node -> Prop) (n : node) sl c :
  AllNodes P n -> getChild n sl = Some c -> AllNodes P c.
Proof.
  intros Hall Hc sls x Hx. apply (Hall (sl :: sls)). simpl. by rewrite Hc.
Qed.

Lemma AllNodes_leaf (P : node -> Prop) (n : node) :
  (forall sl, getChild n sl = None) -> P n -> AllNodes P n.
Proof.
  intros Hleaf HP sls x Hx.
  by destruct (descend_nil_children n sls x Hleaf Hx) as [_ ->].
Qed.

Lemma AllNodes_setChild (P : node -> Prop) (n : node) sl c :
  P (setChild n sl c) -> AllNodes P c -> AllNodes P n ->
  AllNodes P (setChild n sl c).
Proof.
  intros Hhere Hc Hn [|sl' sls] x; simpl.
  - by intros [= <-].
  - destruct (decide (sl = sl')) as [<-|Hne].
    + rewrite getChild_setChild_eq. apply Hc.
    + rewrite getChild_setChild_ne by done.
      destruct (getChild n sl') as [y|] eqn:Hy; [|done].
      by apply (AllNodes_child P n sl' y).
Qed.

Lemma AllNodes_set_handler (P : node -> Prop) (n : node) h :
  P (set_handler n h) -> AllNodes P n -> AllNodes P (set_handler n h).
Proof.
  intros Hhere Hn [|sl' sls] x; simpl.
  - by intros [= <-].
  - rewrite getChild_set_handler. apply (Hn (sl' :: sls)).
Qed.

Lemma exclusive_setChild_some (n : node) sl c c' :
  exclusive (setChild n sl c) = exclusive (setChild n sl c').
Proof. by destruct sl. Qed.

Lemma nodeOk_leaf (n : node) : (forall sl, getChild n sl = None) -> nodeOk n.
Proof.
  intros Hleaf. split.
  - pose proof (Hleaf SlotStar) as Hs. pose proof (Hleaf SlotReg) as Hr.
    simpl in Hs, Hr. unfold exclusive. by rewrite Hs, Hr.
  - intros sl c. by rewrite Hleaf.
Qed.

Lemma nodeOk_set_handler (n : node) h : nodeOk n -> nodeOk (set_handler n h).
Proof.
  intros [Hex Hch]. split; [done|].
  intros sl c. rewrite getChild_set_handler. apply Hch.
Qed.

Lemma nodeOk_replace_child (n : node) sl c c' :
  sameHeader c c' -> nodeOk (setChild n sl c) -> nodeOk (setChild n sl c').
Proof.
  intros (Hp & Ht & Hn & Hr) [Hex Hch]. split.
  - by rewrite (exclusive_setChild_some n sl c' c).
  - intros sl0 c0. destruct (decide (sl = sl0)) as [<-|Hne].
    + rewrite getChild_setChild_eq. intros [= <-].
      specialize (Hch sl c (getChild_setChild_eq n sl c)).
      rewrite <- Hp, <- Ht, <- Hn, <- Hr. done.
    + rewrite getChild_setChild_ne by done. intros Hc0.
      apply Hch. by rewrite getChild_setChild_ne.
Qed.

Lemma exclusive_childFor (n : node) seg :
  exclusive n = true -> clashFree n seg = true ->
  exclusive (setChild n (slotOf seg) (childFor n seg)) = true.
Proof.
  unfold exclusive, clashFree.
  destruct (slotOf seg); simpl;
    destruct (starChild n), (regChild n), (paramChild n); simpl; done.
Qed.

Lemma childFor_header (n : node) seg :
  childrenOk n -> seg <> EmptyString -> clashFree n seg = true ->
  path (childFor n seg) = seg /\ sameHeader (childFor n seg) (freshChild seg).
Proof.
  intros Hch Hseg Hcf. unfold childFor.
  destruct (getChild n (slotOf seg)) as [c|] eqn:Hc; simpl.
  - destruct (Hch _ _ Hc) as (Hsl & Hne & Ht & Hn & Hr).
    assert (path c = seg) as Hpath.
    { unfold clashFree in Hcf. destruct (slotOf seg) eqn:Hs; simpl in Hc.
      - apply slotOf_star in Hsl, Hs. congruence.
      - rewrite Hc in Hcf. apply andb_prop in Hcf as [_ Heq].
        by apply String.eqb_eq.
      - rewrite Hc in Hcf. apply andb_prop in Hcf as [_ Heq].
        by apply String.eqb_eq.
      - apply slotOf_static in Hsl, Hs. congruence. }
    split; [done|]. rewrite Hpath in Ht, Hn, Hr.
    repeat split; try done. by rewrite path_freshChild.
  - split; [by apply path_freshChild|done].
Qed.

Lemma nodeOk_childFor (n : node) seg :
  nodeOk n -> seg <> EmptyString -> clashFree n seg = true ->
  nodeOk (setChild n (slotOf seg) (childFor n seg)).
Proof.
  intros [Hex Hch] Hseg Hcf. split; [by apply exclusive_childFor|].
  destruct (childFor_header n seg Hch Hseg Hcf) as (Hpath & _ & Ht & Hn & Hr).
  intros sl0 c0. destruct (decide (slotOf seg = sl0)) as [<-|Hne].
  - rewrite getChild_setChild_eq. intros [= <-].
    rewrite Hpath. done.
  - rewrite getChild_setChild_ne by done. apply Hch.
Qed.

Lemma AllNodes_childFor (n : node) seg :
  AllNodes nodeOk n -> AllNodes nodeOk (childFor n seg).
Proof.
  intros Hall. unfold childFor.
  destruct (getChild n (slotOf seg)) as [c|] eqn:Hc; simpl.
  - by apply (AllNodes_child nodeOk n (slotOf seg) c).
  - apply AllNodes_leaf; [apply getChild_freshChild|].
    apply nodeOk_leaf, getChild_freshChild.
Qed.

(** The walk keeps every node of the tree well formed, whether it returns
    or panics. *)
Lemma register_nodeOk fullPath segs h :
  forall n : node, AllNodes nodeOk n ->
    AllNodes nodeOk (register fullPath n segs h).1.
Proof.
  induction segs as [|seg rest IH]; intros n Hall.
  - rewrite register_nil. destruct (notNil (handler n)); simpl; [done|].
    apply AllNodes_set_handler; [|done].
    by apply nodeOk_set_handler, AllNodes_here.
  - destruct (String.eqb_spec seg EmptyString) as [->|Hseg]; [done|].
    destruct (clashFree n seg) eqn:Hcf.
    + rewrite register_cons_ok by done. simpl.
      apply AllNodes_setChild; [|by apply IH, AllNodes_childFor|done].
      eapply nodeOk_replace_child; [apply register_sameHeader|].
      apply nodeOk_childFor; [by apply AllNodes_here|done..].
    + by destruct (register_cons_clash fullPath n seg rest h Hseg Hcf)
        as (e & -> & _).
Qed.

Lemma AllNodes_rootOf (r : router) method :
  AllRouterNodes nodeOk r -> AllNodes nodeOk (rootOf r method).
Proof.
  intros Hr. unfold rootOf.
  destruct (trees r !! method) as [root|] eqn:Hroot; simpl.
  - by apply (Hr method).
  - apply AllNodes_leaf; [by intros []|]. apply nodeOk_leaf. by intros [].
Qed.

Lemma AllRouterNodes_insert (P : node -> Prop) (r : router) method root :
  AllRouterNodes P r -> AllNodes P root ->
  AllRouterNodes P (Router (<[method := root]> (trees r))).
Proof.
  intros Hr Hroot method' root'. simpl.
  destruct (decide (method = method')) as [<-|Hne].
  - rewrite lookup_insert_eq. by intros [= <-].
  - rewrite lookup_insert_ne by done. apply Hr.
Qed.

(** Every call of [addRoute], returning or not, keeps the router well
    formed. *)
Lemma addRoute_nodeOk (r : router) method p h :
  AllRouterNodes nodeOk r -> AllRouterNodes nodeOk (addRoute r method p h).1.
Proof.
  intros Hr. rewrite addRoute_eq.
  destruct (negb (wellShaped p)); [done|].
  destruct (String.eqb p "/").
  - destruct (notNil (handler (rootOf r method))); [done|]. simpl.
    apply AllRouterNodes_insert; [done|].
    apply AllNodes_set_handler; [|by apply AllNodes_rootOf].
    by apply nodeOk_set_handler, AllNodes_here, AllNodes_rootOf.
  - simpl. apply AllRouterNodes_insert; [done|].
    by apply register_nodeOk, AllNodes_rootOf.
Qed.

Lemma newRouter_nodeOk : AllRouterNodes nodeOk newRouter.
Proof. intros method root. unfold newRouter; simpl. by rewrite lookup_empty. Qed.

Lemma reachable_nodeOk (r : router) : reachable r -> AllRouterNodes nodeOk r.
Proof.
  induction 1 as [|r method p h _ IH]; [apply newRouter_nodeOk|].
  by apply addRoute_nodeOk.
Qed.

Lemma built_reachable (r : router) : built r -> reachable r.
Proof.
  induction 1 as [|r method p h r' _ IH Hadd]; [constructor|].
  replace r' with (addRoute r method p h).1 by (by rewrite Hadd).
  by constructor.
Qed.

(** ** Registering twice *)

Lemma childFor_path_dynamic (n : node) seg :
  seg <> EmptyString -> clashFree n seg = true ->
  slotOf seg = SlotReg \/ slotOf seg = SlotParam ->
  path (childFor n seg) = seg.
Proof.
  intros Hseg Hcf Hsl. unfold childFor, clashFree in *.
  destruct (getChild n (slotOf seg)) as [c|] eqn:Hc; simpl;
    [|by apply path_freshChild].
  destruct Hsl as [Hsl|Hsl]; rewrite Hsl in Hc, Hcf; simpl in Hc;
    rewrite Hc in Hcf; apply andb_prop in Hcf as [_ Heq];
    by apply String.eqb_eq.
Qed.

Lemma clashFree_setChild_self (n : node) seg c' :
  seg <> EmptyString -> clashFree n seg = true ->
  path c' = path (childFor n seg) ->
  clashFree (setChild n (slotOf seg) c') seg = true.
Proof.
  intros Hseg Hcf Hpath.
  pose proof (childFor_path_dynamic n seg Hseg Hcf) as Hdyn.
  unfold clashFree in *. destruct (slotOf seg) eqn:Hsl; simpl in *; try done.
  - apply andb_prop in Hcf as [-> _]. simpl.
    rewrite Hpath, Hdyn by auto. apply String.eqb_refl.
  - apply andb_prop in Hcf as [-> _]. simpl.
    rewrite Hpath, Hdyn by auto. apply String.eqb_refl.
Qed.

Lemma childFor_setChild (n : node) seg c' :
  childFor (setChild n (slotOf seg) c') seg = c'.
Proof. unfold childFor. by rewrite getChild_setChild_eq. Qed.

(** Walking again through a segment that was resolved before goes down the
    same child. *)
Lemma register_cons_replay fullPath (n : node) seg c' rest h :
  seg <> EmptyString -> clashFree n seg = true ->
  path c' = path (childFor n seg) ->
  register fullPath (setChild n (slotOf seg) c') (seg :: rest) h
  = (setChild n (slotOf seg) (register fullPath c' rest h).1,
     (register fullPath c' rest h).2).
Proof.
  intros Hseg Hcf Hpath.
  rewrite register_cons_ok;
    [|done|by apply clashFree_setChild_self].
  by rewrite childFor_setChild, setChild_setChild.
Qed.

Lemma register_Done_cons fullPath (n : node) seg rest h n1 :
  register fullPath n (seg :: rest) h = (n1, Done tt) ->
  seg <> EmptyString /\ clashFree n seg = true /\
  (register fullPath (childFor n seg) rest h).2 = Done tt /\
  n1 = setChild n (slotOf seg) (register fullPath (childFor n seg) rest h).1.
Proof.
  intros Hreg.
  destruct (String.eqb_spec seg EmptyString) as [->|Hseg]; [done|].
  destruct (clashFree n seg) eqn:Hcf.
  - rewrite register_cons_ok in Hreg by done. by simplify_eq.
  - destruct (register_cons_clash fullPath n seg rest h Hseg Hcf)
      as (e & He & _). congruence.
Qed.

Lemma register_path fullPath segs (n : node) h :
  path (register fullPath n segs h).1 = path n.
Proof. by destruct (register_sameHeader fullPath segs n h) as [<- _]. Qed.

(** A second walk along the segments of a registered route ends on the node
    that holds its handler. *)
Lemma register_again fullPath fullPath' segs h h' :
  forall n n1 : node,
    register fullPath n segs (Some h) = (n1, Done tt) ->
    register fullPath' n1 segs h' = (n1, Panicked (RouteConflict fullPath')).
Proof.
  induction segs as [|seg rest IH]; intros n n1 Hreg.
  - rewrite register_nil in Hreg.
    destruct (notNil (handler n)); simplify_eq. done.
  - apply register_Done_cons in Hreg as (Hseg & Hcf & Hrest & ->).
    rewrite register_cons_replay by (done || apply register_path).
    destruct (register fullPath (childFor n seg) rest (Some h))
      as [c' o] eqn:Hc'. simpl in *. subst o.
    by rewrite (IH _ _ Hc').
Qed.

(** Two distinct wildcard, regex or param segments never share a position:
    once one is registered there, a walk that brings the other to the same
    position panics with a conflict, and writes nothing. *)
Lemma clashFree_after_other (n : node) s1 s2 c' :
  s1 <> EmptyString -> clashFree n s1 = true ->
  path c' = path (childFor n s1) ->
  isDynamic (slotOf s1) = true -> isDynamic (slotOf s2) = true ->
  s1 <> s2 ->
  clashFree (setChild n (slotOf s1) c') s2 = false.
Proof.
  intros Hs1 Hcf Hpath Hd1 Hd2 Hne.
  pose proof (childFor_path_dynamic n s1 Hs1 Hcf) as Hp1.
  unfold clashFree in *.
  destruct (slotOf s1) eqn:Hsl1, (slotOf s2) eqn:Hsl2; simpl in *;
    try done.
  - apply slotOf_star in Hsl1, Hsl2. congruence.
  - by rewrite andb_false_r.
  - by rewrite andb_false_r.
  - apply andb_prop in Hcf as [Hcf _]. apply andb_prop in Hcf as [_ Hstar].
    by destruct (starChild n).
  - rewrite Hpath, Hp1 by auto.
    apply andb_false_intro2. by apply String.eqb_neq.
  - apply andb_prop in Hcf as [Hcf _]. apply andb_prop in Hcf as [_ Hstar].
    rewrite andb_false_r. by destruct (starChild n).
  - rewrite Hpath, Hp1 by auto.
    apply andb_false_intro2. by apply String.eqb_neq.
Qed.

Lemma register_then_clash fullPath fullPath' pre s1 post1 s2 post2 h h' :
  isDynamic (slotOf s1) = true -> isDynamic (slotOf s2) = true ->
  s1 <> s2 ->
  forall n n1 : node,
    register fullPath n (pre ++ s1 :: post1) h = (n1, Done tt) ->
    exists e, register fullPath' n1 (pre ++ s2 :: post2) h' = (n1, Panicked e)
              /\ isConflictError e = true.
Proof.
  intros Hd1 Hd2 Hne.
  assert (s2 <> EmptyString) as Hs2 by (by intros ->).
  induction pre as [|seg pre IH]; intros n n1 Hreg; cbn [app] in *.
  - apply register_Done_cons in Hreg as (Hs1 & Hcf & _ & ->).
    apply register_cons_clash; [done|].
    apply clashFree_after_other; try done. apply register_path.
  - apply register_Done_cons in Hreg as (Hseg & Hcf & Hrest & ->).
    destruct (register fullPath (childFor n seg) (pre ++ s1 :: post1) h)
      as [c' o] eqn:Hc'. cbn [fst snd] in *. subst o.
    destruct (IH _ _ Hc') as (e & He & Hconf).
    exists e. split; [|done].
    rewrite register_cons_replay.
    + by rewrite He.
    + done.
    + done.
    + change c' with (c', Done tt).1. rewrite <- Hc'. apply register_path.
Qed.

(** Handlers stay where they are: whatever [addRoute] does, a position that
    held a handler holds the same one afterwards. *)
Lemma register_keeps_handlers fullPath segs h g :
  forall (n : node) sls x,
    descend n sls = Some x -> handler x = Some g ->
    exists x', descend (register fullPath n segs h).1 sls = Some x'
               /\ handler x' = Some g.
Proof.
  induction segs as [|seg rest IH]; intros n sls x Hx Hg.
  - rewrite register_nil. destruct (notNil (handler n)) eqn:Hh; simpl; eauto.
    destruct sls as [|sl sls]; simpl in *.
    + simplify_eq. by rewrite Hg in Hh.
    + rewrite getChild_set_handler. eauto.
  - destruct (String.eqb_spec seg EmptyString) as [->|Hseg]; [simpl; eauto|].
    destruct (clashFree n seg) eqn:Hcf.
    + rewrite register_cons_ok by done. simpl.
      destruct sls as [|sl sls]; simpl in *.
      * simplify_eq. eexists. split; [done|]. by rewrite handler_setChild.
      * destruct (getChild n sl) as [y|] eqn:Hy; [|done].
        destruct (decide (slotOf seg = sl)) as [<-|Hsl].
        -- rewrite getChild_setChild_eq.
           unfold childFor. rewrite Hy. simpl. by apply (IH y sls x).
        -- rewrite getChild_setChild_ne, Hy by done. eauto.
    + destruct (register_cons_clash fullPath n seg rest h Hseg Hcf)
        as (e & -> & _). simpl. eauto.
Qed.

Lemma addRoute_keeps_handlers (r : router) method p h method0 sls g :
  handlerAt r method0 sls = Some g ->
  handlerAt (addRoute r method p h).1 method0 sls = Some g.
Proof.
  unfold handlerAt, nodeAt. intros Hat.
  destruct (trees r !! method0) as [root0|] eqn:Hroot0; [|done].
  destruct (descend root0 sls) as [x|] eqn:Hx; [|done].
  rewrite addRoute_eq. destruct (negb (wellShaped p)).
  { simpl. by rewrite Hroot0, Hx. }
  destruct (decide (method = method0)) as [->|Hm].
  - unfold rootOf. rewrite Hroot0. simpl.
    destruct (String.eqb p "/").
    + destruct (notNil (handler root0)) eqn:Hh; simpl.
      * by rewrite Hroot0, Hx.
      * rewrite lookup_insert_eq.
        destruct sls as [|sl sls]; simpl in *.
        -- simplify_eq. by rewrite Hat in Hh.
        -- rewrite getChild_set_handler.
           destruct (getChild root0 sl); [|done]. by rewrite Hx.
    + simpl. rewrite lookup_insert_eq.
      destruct (register_keeps_handlers p (segments p) h g root0 sls x Hx Hat)
        as (x' & -> & Hx'). done.
  - destruct (String.eqb p "/").
    + destruct (notNil (handler (rootOf r method))); simpl.
      * by rewrite Hroot0, Hx.
      * rewrite lookup_insert_ne by done. by rewrite Hroot0, Hx.
    + simpl. rewrite lookup_insert_ne by done. by rewrite Hroot0, Hx.
Qed.

Lemma segments_root : segments "/" = [EmptyString].
Proof. done. Qed.

Lemma isDynamic_nonempty seg : isDynamic (slotOf seg) = true -> seg <> EmptyString.
Proof. by intros Hd ->. Qed.

Lemma segments_dynamic_not_root p pre seg post :
  segments p = pre ++ seg :: post -> isDynamic (slotOf seg) = true ->
  String.eqb p "/" = false.
Proof.
  intros Hsegs Hd. destruct (String.eqb_spec p "/") as [->|]; [|done].
  rewrite segments_root in Hsegs.
  destruct pre as [|? [|? ?]]; simpl in Hsegs; by simplify_eq.
Qed.

Lemma rootOf_insert (ts : gmap string node) method root :
  rootOf (Router (<[method := root]> ts)) method = root.
Proof. unfold rootOf. simpl. by rewrite lookup_insert_eq. Qed.

(** Once a route through a wildcard, regex or param segment is registered,
    a route that brings a different such segment to the same position is
    refused, and the router is left as it was. *)
Lemma addRoute_then_clash (r r1 : router) method p1 h1 p2 h2
    pre s1 post1 s2 post2 :
  addRoute r method p1 h1 = (r1, Done tt) ->
  wellShaped p2 = true ->
  segments p1 = pre ++ s1 :: post1 ->
  segments p2 = pre ++ s2 :: post2 ->
  isDynamic (slotOf s1) = true -> isDynamic (slotOf s2) = true ->
  s1 <> s2 ->
  exists e, addRoute r1 method p2 h2 = (r1, Panicked e)
            /\ isConflictError e = true.
Proof.
  intros Hadd Hw2 Hsegs1 Hsegs2 Hd1 Hd2 Hne.
  rewrite addRoute_eq in Hadd.
  destruct (negb (wellShaped p1)); [done|].
  rewrite (segments_dynamic_not_root p1 pre s1 post1) in Hadd by done.
  rewrite Hsegs1 in Hadd.
  destruct (register p1 (rootOf r method) (pre ++ s1 :: post1) h1)
    as [n1 o] eqn:Hreg.
  cbn [fst snd] in Hadd. simplify_eq.
  destruct (register_then_clash p1 p2 pre s1 post1 s2 post2 h1 h2
              Hd1 Hd2 Hne _ _ Hreg) as (e & He & Hconf).
  exists e. split; [|done].
  rewrite addRoute_eq, Hw2. cbn [negb].
  rewrite (segments_dynamic_not_root p2 pre s2 post2) by done.
  rewrite Hsegs2, rootOf_insert, He. cbn [fst snd trees].
  by rewrite insert_insert_eq.
Qed.

(** ** Registration *)

(** C2: after [addRoute] has returned for a method and a path, every further
    [addRoute] for the same method and the same path, the root path
    included, panics with a conflict error and leaves the router as it is;
    and no call of [addRoute] ever changes a handler that is set, at any
    position of any tree. *)
Theorem addRoute_twice_conflicts (r r1 : router) method p (h : HandleFunc) :
  addRoute r method p (Some h) = (r1, Done tt) ->
  (forall h', exists e,
      addRoute r1 method p h' = (r1, Panicked e) /\ isConflictError e = true)
  /\ (forall method' p' h' method0 sls g,
        handlerAt r1 method0 sls = Some g ->
        handlerAt (addRoute r1 method' p' h').1 method0 sls = Some g).
Proof.
  intros Hadd. split; [|intros; by apply addRoute_keeps_handlers].
  intros h'. rewrite addRoute_eq in Hadd. rewrite addRoute_eq.
  destruct (negb (wellShaped p)); [done|].
  destruct (String.eqb p "/").
  - destruct (notNil (handler (rootOf r method))); simplify_eq.
    rewrite rootOf_insert. simpl. eauto.
  - destruct (register p (rootOf r method) (segments p) (Some h))
      as [n1 o] eqn:Hreg.
    cbn [fst snd] in Hadd. simplify_eq.
    rewrite rootOf_insert, (register_again p p _ h h' _ _ Hreg).
    cbn [fst snd trees]. rewrite insert_insert_eq. eauto.
Qed.

Lemma AllRouterNodes_impl (P Q : node -> Prop) (r : router) :
  (forall n, P n -> Q n) -> AllRouterNodes P r -> AllRouterNodes Q r.
Proof. intros HPQ Hr method root Hroot sls x Hx. eapply HPQ, Hr; eauto. Qed.

(** C4: in a router built from [newRouter] by calls of [addRoute] that
    returned, every node of every method's tree has at most one of its
    wildcard, regex and param children set, and this still holds after any
    further call of [addRoute], whether it returns or panics.  The static
    children are not restricted: a node that has a static child can be given
    any one of the three. *)
Theorem exclusivity_invariant (r : router) :
  built r ->
  AllRouterNodes (fun n => exclusive n = true) r
  /\ (forall method p h,
        AllRouterNodes (fun n => exclusive n = true) (addRoute r method p h).1)
  /\ (forall seg, isDynamic (slotOf seg) = true ->
      forall (n : node) key c, getChild n (SlotStatic key) = Some c ->
        clashFree n seg = true ->
        exists n1 sl c1, childOrCreate n seg = Done (n1, sl, c1)
          /\ getChild n1 (SlotStatic key) = Some c
          /\ getChild n1 sl = Some c1 /\ isDynamic sl = true).
Proof.
  intros Hb. apply built_reachable, reachable_nodeOk in Hb.
  split; [|split].
  - eapply AllRouterNodes_impl; [|exact Hb]. by intros n [? _].
  - intros method p h.
    eapply AllRouterNodes_impl; [|by apply addRoute_nodeOk]. by intros n [? _].
  - intros seg Hd n key c Hc Hcf.
    rewrite (childOrCreate_clashFree n seg) by (done || by apply isDynamic_nonempty).
    do 3 eexists. split; [done|].
    rewrite getChild_setChild_eq.
    rewrite getChild_setChild_ne by (by destruct (slotOf seg)). done.
Qed.

(** C6: at a position whose regex (or param) child was registered with the
    same segment text, [childOrCreate] returns that child and leaves the node
    as it is; with a different text of the same kind it panics with a
    conflict error.  For whole routes: once a route through a param or regex
    segment is registered, a route that differs from it at that position by
    another segment of the same kind (as [/user/:id] and [/user/:name]) is
    refused with a conflict error. *)
Theorem same_kind_reregistration :
  (forall (n : node) seg c,
      slotOf seg = SlotReg \/ slotOf seg = SlotParam ->
      exclusive n = true ->
      getChild n (slotOf seg) = Some c -> path c = seg ->
      childOrCreate n seg = Done (n, slotOf seg, c))
  /\ (forall (n : node) seg c,
        slotOf seg = SlotReg \/ slotOf seg = SlotParam ->
        getChild n (slotOf seg) = Some c -> path c <> seg ->
        exists e, childOrCreate n seg = Panicked e /\ isConflictError e = true)
  /\ (forall (r r1 : router) method p1 h1 p2 h2 pre s1 post1 s2 post2,
        addRoute r method p1 h1 = (r1, Done tt) ->
        wellShaped p2 = true ->
        segments p1 = pre ++ s1 :: post1 ->
        segments p2 = pre ++ s2 :: post2 ->
        slotOf s1 = SlotReg \/ slotOf s1 = SlotParam ->
        slotOf s2 = slotOf s1 -> s1 <> s2 ->
        exists e, addRoute r1 method p2 h2 = (r1, Panicked e)
                  /\ isConflictError e = true).
Proof.
  split; [|split].
  - intros n seg c Hsl Hex Hc Hpath.
    assert (seg <> EmptyString) as Hseg by (by destruct Hsl; intros ->).
    assert (clashFree n seg = true) as Hcf.
    { unfold clashFree, exclusive in *.
      destruct Hsl as [Hsl|Hsl]; rewrite Hsl in *; simpl in Hc;
        rewrite Hc in *; destruct (starChild n);
        try destruct (paramChild n); try destruct (regChild n);
        simpl; try done; simplify_eq; apply String.eqb_refl. }
    rewrite childOrCreate_clashFree by done.
    unfold childFor. rewrite Hc. simpl. by rewrite setChild_id.
  - intros n seg c Hsl Hc Hpath.
    assert (seg <> EmptyString) as Hseg by (by destruct Hsl; intros ->).
    apply childOrCreate_clash; [done|].
    unfold clashFree.
    destruct Hsl as [Hsl|Hsl]; rewrite Hsl in *; simpl in Hc; rewrite Hc;
      apply andb_false_intro2; by apply String.eqb_neq.
  - intros r r1 method p1 h1 p2 h2 pre s1 post1 s2 post2
      Hadd Hw Hsegs1 Hsegs2 Hsl1 Hsl2 Hne.
    eapply addRoute_then_clash; eauto.
    + by destruct Hsl1 as [->| ->].
    + rewrite Hsl2. by destruct Hsl1 as [->| ->].
Qed.

(** C7: at a node that holds a wildcard, regex or param child,
    [childOrCreate] panics with a conflict error on a segment of another of
    these three kinds.  For whole routes: once a route through a segment of
    one kind is registered, a route that brings a segment of another kind to
    the same position is refused with a conflict error, whichever of the two
    came first. *)
Theorem mixed_kinds_conflict :
  (forall (n : node) seg sl',
      exclusive n = true ->
      isDynamic (slotOf seg) = true -> isDynamic sl' = true ->
      sl' <> slotOf seg -> is_Some (getChild n sl') ->
      exists e, childOrCreate n seg = Panicked e /\ isConflictError e = true)
  /\ (forall (r r1 : router) method p1 h1 p2 h2 pre s1 post1 s2 post2,
        addRoute r method p1 h1 = (r1, Done tt) ->
        wellShaped p2 = true ->
        segments p1 = pre ++ s1 :: post1 ->
        segments p2 = pre ++ s2 :: post2 ->
        isDynamic (slotOf s1) = true -> isDynamic (slotOf s2) = true ->
        slotOf s1 <> slotOf s2 ->
        exists e, addRoute r1 method p2 h2 = (r1, Panicked e)
                  /\ isConflictError e = true).
Proof.
  split.
  - intros n seg sl' Hex Hd Hd' Hne [c Hc].
    apply childOrCreate_clash; [by apply isDynamic_nonempty|].
    unfold clashFree, exclusive in *.
    destruct (slotOf seg), sl'; simpl in *; try done;
      rewrite Hc in *; simpl;
      destruct (starChild n), (regChild n), (paramChild n); simpl; done.
  - intros r r1 method p1 h1 p2 h2 pre s1 post1 s2 post2
      Hadd Hw Hsegs1 Hsegs2 Hd1 Hd2 Hne.
    eapply addRoute_then_clash; eauto. congruence.
Qed.

(** C8: [addRoute] on the path ["/"] works on the method's root alone: when
    the root has no handler it returns, and the only change is the handler
    of the root (a root is first made if the method had no tree), every child
    slot of the root being as before; when the root has a handler it panics
    with the root conflict and changes nothing. *)
Theorem addRoute_root_path (r : router) method h :
  addRoute r method "/" h
  = (if notNil (handler (rootOf r method)) then (r, Panicked RootConflict)
     else (Router (<[method := set_handler (rootOf r method) h]> (trees r)),
           Done tt))
  /\ isConflictError RootConflict = true
  /\ (forall sl, getChild (set_handler (rootOf r method) h) sl
                 = getChild (rootOf r method) sl)
  /\ (trees r !! method = None ->
      forall sl, getChild (set_handler (rootOf r method) h) sl = None).
Proof.
  split; [by rewrite addRoute_eq|]. split; [done|].
  split; [intros sl; apply getChild_set_handler|].
  intros Hnone sl. unfold rootOf. rewrite Hnone. by destruct sl.
Qed.

(** ** Panics of the walk *)

Lemma existsb_empty_In (segs : list string) :
  existsb (fun seg => String.eqb seg EmptyString) segs = true
  <-> In EmptyString segs.
Proof.
  rewrite existsb_exists. split.
  - intros (seg & Hin & Heq). apply String.eqb_eq in Heq. by subst.
  - intros Hin. exists EmptyString. done.
Qed.

Lemma conflict_not_validation e :
  isConflictError e = true -> isValidationError e = false.
Proof. by destruct e. Qed.

(** The walk panics either on an empty segment or with a conflict. *)
Lemma register_Panicked fullPath segs h e :
  forall n : node,
    (register fullPath n segs h).2 = Panicked e ->
    (e = IllegalRoute fullPath /\ In EmptyString segs)
    \/ isConflictError e = true.
Proof.
  induction segs as [|seg rest IH]; intros n Hp.
  - rewrite register_nil in Hp.
    destruct (notNil (handler n)); simpl in Hp; simplify_eq. by right.
  - destruct (String.eqb_spec seg EmptyString) as [->|Hseg].
    { simpl in Hp. simplify_eq. left. split; [done|by left]. }
    destruct (clashFree n seg) eqn:Hcf.
    + rewrite register_cons_ok in Hp by done. simpl in Hp.
      destruct (IH _ Hp) as [[-> Hin]|Hc]; [left|by right].
      split; [done|by right].
    + destruct (register_cons_clash fullPath n seg rest h Hseg Hcf)
        as (e' & He' & Hc).
      rewrite He' in Hp. simpl in Hp. simplify_eq. by right.
Qed.

(** A list of segments with an empty one is never walked to its end. *)
Lemma register_empty_segment fullPath segs h :
  In EmptyString segs ->
  forall n : node, exists e,
    (register fullPath n segs h).2 = Panicked e
    /\ (e = IllegalRoute fullPath \/ isConflictError e = true).
Proof.
  induction segs as [|seg rest IH]; intros Hin n; [done|].
  destruct (String.eqb_spec seg EmptyString) as [->|Hseg].
  { simpl. eauto. }
  destruct Hin as [|Hin]; [done|].
  destruct (clashFree n seg) eqn:Hcf.
  - rewrite register_cons_ok by done. simpl. by apply IH.
  - destruct (register_cons_clash fullPath n seg rest h Hseg Hcf)
      as (e & -> & Hc). simpl. eauto.
Qed.

Lemma clashFree_leaf (n : node) seg :
  (forall sl, getChild n sl = None) -> clashFree n seg = true.
Proof.
  intros Hleaf.
  pose proof (Hleaf SlotStar) as Hs. pose proof (Hleaf SlotReg) as Hr.
  pose proof (Hleaf SlotParam) as Hp. simpl in Hs, Hr, Hp.
  unfold clashFree. rewrite Hs, Hr, Hp. by destruct (slotOf seg).
Qed.

Lemma childFor_leaf (n : node) seg :
  (forall sl, getChild n sl = None) -> childFor n seg = freshChild seg.
Proof. intros Hleaf. unfold childFor. by rewrite Hleaf. Qed.

(** Below a node without children no conflict can arise, so the walk gets
    to the empty segment. *)
Lemma register_leaf_empty_segment fullPath segs h :
  In EmptyString segs ->
  forall n : node, (forall sl, getChild n sl = None) ->
    (register fullPath n segs h).2 = Panicked (IllegalRoute fullPath).
Proof.
  induction segs as [|seg rest IH]; intros Hin n Hleaf; [done|].
  destruct (String.eqb_spec seg EmptyString) as [->|Hseg]; [done|].
  destruct Hin as [|Hin]; [done|].
  rewrite register_cons_ok by (done || by apply clashFree_leaf). simpl.
  rewrite childFor_leaf by done. apply IH; [done|].
  apply getChild_freshChild.
Qed.

Lemma descend_leaf_handler (n : node) sls :
  (forall sl, getChild n sl = None) -> handler n = None ->
  match descend n sls with
  | Some y => handler y
  | None => None
  end = None.
Proof.
  intros Hleaf Hh. destruct (descend n sls) as [y|] eqn:Hy; [|done].
  by apply descend_nil_children in Hy as [_ ->].
Qed.



(** [addRoute] panics only with validation and conflict errors. *)
Lemma addRoute_Panicked (r : router) method p h e :
  (addRoute r method p h).2 = Panicked e ->
  (isValidationError e = true /\ invalidPath p = true)
  \/ isConflictError e = true.
Proof.
  rewrite addRoute_eq. unfold invalidPath.
  destruct (wellShaped p) eqn:Hw; simpl.
  - destruct (String.eqb p "/"); simpl.
    + destruct (notNil (handler (rootOf r method))); simpl; intros; simplify_eq.
      by right.
    + intros Hp. apply register_Panicked in Hp as [[-> Hin]|Hc]; [left|by right].
      split; [done|]. by apply existsb_empty_In.
  - intros [= <-]. left. split; [|done]. unfold shapeError.
    by repeat case_match.
Qed.

Lemma addRoute_invalid_fails (r : router) method p h :
  invalidPath p = true ->
  exists e, (addRoute r method p h).2 = Panicked e
            /\ (isValidationError e = true \/ isConflictError e = true).
Proof.
  rewrite addRoute_eq. unfold invalidPath.
  destruct (wellShaped p) eqn:Hw; simpl.
  - destruct (String.eqb p "/"); simpl; [done|].
    intros Hin. apply existsb_empty_In in Hin.
    destruct (register_empty_segment p (segments p) h Hin (rootOf r method))
      as (e & He & [->|Hc]); eauto.
  - intros _. eexists. split; [done|]. left. unfold shapeError.
    by repeat case_match.
Qed.

Lemma addRoute_invalid_fresh_method (r : router) method p h :
  trees r !! method = None -> invalidPath p = true ->
  exists e, (addRoute r method p h).2 = Panicked e
            /\ isValidationError e = true.
Proof.
  intros Hnone. rewrite addRoute_eq. unfold invalidPath.
  destruct (wellShaped p) eqn:Hw; simpl.
  - destruct (String.eqb p "/"); simpl; [done|].
    intros Hin. apply existsb_empty_In in Hin.
    rewrite register_leaf_empty_segment; [eauto|done|].
    unfold rootOf. rewrite Hnone. by intros [].
  - intros _. eexists. split; [done|]. unfold shapeError.
    by repeat case_match.
Qed.

(** C3, as the code has it: [addRoute] panics with a validation error
    exactly when the path is invalid (empty, without a leading slash, with a
    trailing slash and not the root path, or with an empty segment) and no
    conflict is met on the way to the empty segment; with an invalid path it
    always panics, and with a validation error whenever the method has no
    tree yet.  The four paths of the documentation are refused with a
    validation error by every router. *)
Theorem validation_errors (r : router) method p h :
  ((exists e, (addRoute r method p h).2 = Panicked e
              /\ isValidationError e = true)
   <-> invalidPath p = true
       /\ ~ (exists e, (addRoute r method p h).2 = Panicked e
                       /\ isConflictError e = true))
  /\ (trees r !! method = None ->
      ((exists e, (addRoute r method p h).2 = Panicked e
                  /\ isValidationError e = true)
       <-> invalidPath p = true))
  /\ (addRoute r method EmptyString h).2 = Panicked EmptyRoute
  /\ (addRoute r method "a/b" h).2 = Panicked NoLeadingSlash
  /\ (addRoute r method "/a/" h).2 = Panicked TrailingSlash
  /\ (addRoute r method "/a//b" h).2 = Panicked (IllegalRoute "/a//b").
Proof.
  split; [|split].
  - split.
    + intros (e & He & Hv). split.
      * destruct (addRoute_Panicked r method p h e He) as [[_ Hi]|Hc]; [done|].
        apply conflict_not_validation in Hc. congruence.
      * intros (e' & He' & Hc). apply conflict_not_validation in Hc.
        congruence.
    + intros [Hi Hnc].
      destruct (addRoute_invalid_fails r method p h Hi) as (e & He & [Hv|Hc]);
        [eauto|]. destruct Hnc. eauto.
  - intros Hnone. split.
    + intros (e & He & Hv).
      destruct (addRoute_Panicked r method p h e He) as [[_ Hi]|Hc]; [done|].
      apply conflict_not_validation in Hc. congruence.
    + by apply addRoute_invalid_fresh_method.
  - repeat split; try (by rewrite addRoute_eq).
    rewrite addRoute_eq. change (segments "/a//b") with ["a"; EmptyString; "b"].
    simpl negb. cbn iota.
    change (String.eqb "/a//b" "/") with false. cbn iota.
    by rewrite register_cons_ok.
Qed.


(** ** The regex shape and the texts cut out of it *)

Lemma has_char_app c (a b : string) :
  Str.has_char c (a +:+ b) = Str.has_char c a || Str.has_char c b.
Proof.
  induction a as [|d a IH]; simpl; [done|]. by rewrite IH, orb_assoc.
Qed.

Lemma last_app_char (a : string) c : Str.last (a +:+ String c EmptyString) = Some c.
Proof.
  induction a as [|d a IH]; simpl; [done|].
  rewrite IH. by destruct a.
Qed.

Lemma last_is_char (t : string) c :
  Str.is_char c (Str.last t) = true ->
  exists b, t = b +:+ String c EmptyString.
Proof.
  induction t as [|d t IH]; simpl; [done|].
  destruct t as [|d' t'].
  - simpl. intros Heq. apply Ascii.eqb_eq in Heq as ->. by exists EmptyString.
  - intros Hl. destruct (IH Hl) as (b & Hb). exists (String d b).
    simpl. by rewrite Hb.
Qed.

Lemma length_app (a b : string) :
  String.length (a +:+ b) = String.length a + String.length b.
Proof. induction a as [|d a IH]; simpl; [done|]. by rewrite IH. Qed.

Lemma append_assoc (a b c : string) : (a +:+ b) +:+ c = a +:+ (b +:+ c).
Proof.
  induction a as [|d a IH]; [done|].
  change (String d ((a +:+ b) +:+ c) = String d (a +:+ (b +:+ c))).
  by rewrite IH.
Qed.

Lemma paren_then_two_intro (a b : string) :
  b <> EmptyString ->
  Str.paren_then_two (a +:+ String "(" (b +:+ ")")) = true.
Proof.
  intros Hb. induction a as [|d a IH]; simpl.
  - destruct b as [|e b]; [done|]. simpl. rewrite length_app. simpl.
    by destruct (String.length b).
  - rewrite IH. apply orb_true_r.
Qed.

Lemma paren_then_two_elim (t : string) :
  Str.is_char ")" (Str.last t) = true -> Str.paren_then_two t = true ->
  exists a b, t = a +:+ String "(" (b +:+ ")") /\ b <> EmptyString.
Proof.
  induction t as [|d t IH]; simpl; [done|]. intros Hl Hp.
  apply orb_prop in Hp as [Hp|Hp].
  - apply andb_prop in Hp as [Hd Hlen]. apply Ascii.eqb_eq in Hd as ->.
    destruct t as [|e t]; [done|].
    destruct (last_is_char _ _ Hl) as (b & Hb).
    exists EmptyString, b. split; [simpl; by rewrite Hb|].
    intros ->. rewrite Hb in Hlen. done.
  - destruct t as [|e t]; [done|].
    destruct (IH Hl Hp) as (a & b & Hab & Hb).
    exists (String d a), b. split; [simpl; by rewrite Hab|done].
Qed.

(** The texts accepted by the pattern of [childOrCreate] are the texts
    [":" name "(" expr ")"] with [name] and [expr] non-empty and on one
    line. *)
Lemma matchRegShape_spec seg :
  matchRegShape seg = true <->
  exists name expr,
    seg = String ":" (name +:+ String "(" (expr +:+ ")")) /\
    name <> EmptyString /\ expr <> EmptyString /\
    Str.has_char "010" name = false /\ Str.has_char "010" expr = false.
Proof.
  unfold matchRegShape. split.
  - destruct seg as [|c0 [|c rest]]; try done; try (by destruct c0 as [[] [] [] [] [] [] [] []]).
    destruct (Ascii.eqb_spec c0 ":") as [->|Hc0];
      [|by destruct c0 as [[] [] [] [] [] [] [] []]].
    intros Hm. apply andb_prop in Hm as [Hm Hp].
    apply andb_prop in Hm as [Hnl Hl]. apply negb_true_iff in Hnl.
    destruct (paren_then_two_elim rest Hl Hp) as (a & b & -> & Hb).
    exists (String c a), b. split; [done|]. split; [done|]. split; [done|].
    change (String c (a +:+ String "(" (b +:+ ")")))
      with (String c a +:+ String "(" (b +:+ ")")) in Hnl.
    rewrite has_char_app in Hnl. apply orb_false_elim in Hnl as [Hn1 Hn2].
    split; [done|]. simpl in Hn2. rewrite has_char_app in Hn2.
    by apply orb_false_elim in Hn2 as [Hn2 _].
  - intros (name & expr & -> & Hname & Hexpr & Hn1 & Hn2).
    destruct name as [|c a]; [done|]. simpl.
    simpl in Hn1. apply orb_false_elim in Hn1 as [Hc Ha].
    rewrite Hc, has_char_app, Ha. simpl.
    rewrite has_char_app, Hn2. simpl.
    rewrite paren_then_two_intro by done.
    change (String "(" (expr +:+ ")")) with (String "(" expr +:+ ")").
    rewrite <- append_assoc, last_app_char. done.
Qed.

Lemma index_paren_cons c (t : string) :
  String.index 0 "(" (String c t)
  = if Ascii.eqb c "(" then Some 0
    else match String.index 0 "(" t with
         | Some n => Some (S n)
         | None => None
         end.
Proof.
  change (String.index 0 "(" (String c t)) with
    (if (if ascii_dec "(" c then String.prefix EmptyString t else false)
     then Some 0
     else match String.index 0 "(" t with
          | Some n => Some (S n)
          | None => None
          end).
  destruct (ascii_dec "(" c) as [<-|Hne].
  - by destruct t.
  - destruct (Ascii.eqb_spec c "(") as [->|_]; done.
Qed.

Lemma index_paren (name rest : string) :
  Str.has_char "(" name = false ->
  String.index 0 "(" (name +:+ String "(" rest) = Some (String.length name).
Proof.
  induction name as [|c a IH]; intros Hno.
  - change (EmptyString +:+ String "(" rest) with (String "(" rest).
    by rewrite index_paren_cons.
  - simpl in Hno. apply orb_false_elim in Hno as [Hc Ha].
    change (String c a +:+ String "(" rest)
      with (String c (a +:+ String "(" rest)).
    by rewrite index_paren_cons, Hc, (IH Ha).
Qed.

Lemma substring_prefix (a b : string) :
  String.substring 0 (String.length a) (a +:+ b) = a.
Proof.
  induction a as [|c a IH]; simpl; [by destruct b|]. by rewrite IH.
Qed.

Lemma substring_skip (a b : string) k m :
  String.substring (String.length a + k) m (a +:+ b) = String.substring k m b.
Proof. induction a as [|c a IH]; simpl; done. Qed.

(** [path[1:idx]] is the name: the text from the colon to the first opening
    parenthesis. *)
Lemma regParamName_shape (name rest : string) :
  Str.has_char "(" name = false ->
  regParamName (String ":" (name +:+ String "(" rest)) = name.
Proof.
  intros Hno. unfold regParamName.
  change (String ":" (name +:+ String "(" rest))
    with (String ":" name +:+ String "(" rest).
  rewrite index_paren by done. simpl String.length.
  replace (S (String.length name) - 1) with (String.length name) by lia.
  simpl. apply substring_prefix.
Qed.

(** [path[idx+1 : len(path)-1]] is the expression between that parenthesis
    and the closing one at the end. *)
Lemma regExprText_shape (name expr : string) :
  Str.has_char "(" name = false ->
  regExprText (String ":" (name +:+ String "(" (expr +:+ ")"))) = expr.
Proof.
  intros Hno. unfold regExprText.
  set (seg := String ":" (name +:+ String "(" (expr +:+ ")"))).
  assert (seg = (String ":" name +:+ "(") +:+ (expr +:+ ")")) as Hseg
    by (by rewrite append_assoc).
  assert (String.index 0 "(" seg = Some (S (String.length name))) as ->
    by (by apply (index_paren (String ":" name))).
  assert (String.length seg = String.length name + String.length expr + 3)
    as -> by (unfold seg; simpl; rewrite length_app; simpl;
              rewrite length_app; simpl; lia).
  replace (S (String.length name) + 1)
    with (String.length (String ":" name +:+ "(") + 0)
    by (rewrite length_app; simpl; lia).
  replace (String.length name + String.length expr + 3 - 1
           - (String.length (String ":" name +:+ "(") + 0))
    with (String.length expr) by (rewrite length_app; simpl; lia).
  rewrite Hseg, substring_skip. apply substring_prefix.
Qed.

Lemma index_paren_bound (a b : string) :
  exists k, String.index 0 "(" (a +:+ String "(" b) = Some k
            /\ k <= String.length a.
Proof.
  induction a as [|c a (k & Hk & Hle)].
  - exists 0. change (EmptyString +:+ String "(" b) with (String "(" b).
    by rewrite index_paren_cons.
  - change (String c a +:+ String "(" b) with (String c (a +:+ String "(" b)).
    rewrite index_paren_cons, Hk.
    destruct (Ascii.eqb c "("); eexists; (split; [done|simpl; lia]).
Qed.

(** On a text of the regex shape the two slices of [childOrCreate] are
    within bounds: the first opening parenthesis comes after the colon and
    leaves room for the closing one. *)
Lemma regex_slices_in_range seg :
  matchRegShape seg = true ->
  exists idx, String.index 0 "(" seg = Some idx
              /\ 1 <= idx /\ idx + 1 <= String.length seg - 1.
Proof.
  intros Hm. apply matchRegShape_spec in Hm
    as (name & expr & -> & Hname & Hexpr & _).
  destruct (index_paren_bound name (expr +:+ ")")) as (k & Hk & Hle).
  exists (S k). rewrite index_paren_cons, Hk. split; [done|].
  split; [lia|]. simpl. rewrite length_app. simpl. rewrite length_app.
  destruct expr; [done|]. simpl. lia.
Qed.

Lemma matchRegShape_slotOf seg :
  matchRegShape seg = true -> slotOf seg = SlotReg.
Proof.
  intros Hm. unfold slotOf. rewrite Hm.
  apply matchRegShape_spec in Hm as (name & expr & -> & _).
  destruct name; done.
Qed.

(** C5: [childOrCreate] classifies the raw segment in a fixed order.  The
    segment ["*"] resolves to the wildcard child; otherwise a segment that
    starts with a colon and has the shape [":" name "(" expr ")"] resolves to
    the regex child, whose [paramName] is the text between the colon and the
    first opening parenthesis; otherwise a segment that starts with a colon
    resolves to the param child, whose [paramName] is the text after the
    colon; any other segment resolves to the static child stored under the
    segment itself.  The child is the one already in that slot, or a new
    node when the slot was empty. *)
Theorem childOrCreate_classification (n n1 : node) seg sl c :
  childrenOk n ->
  childOrCreate n seg = Done (n1, sl, c) ->
  getChild n1 sl = Some c /\ path c = seg /\
  (getChild n sl = None -> c = freshChild seg) /\
  (forall c0, getChild n sl = Some c0 -> c = c0 /\ n1 = n) /\
  (if String.eqb seg "*" then sl = SlotStar /\ typ c = nodeTypeAny
   else if Str.is_char ":" (Str.first seg) then
     if matchRegShape seg
     then sl = SlotReg /\ typ c = nodeTypeReg
          /\ paramName c = regParamName seg
     else sl = SlotParam /\ typ c = nodeTypeParam
          /\ paramName c = Str.tail seg
   else sl = SlotStatic seg /\ typ c = nodeTypeStatic) /\
  (matchRegShape seg = true <->
   exists name expr,
     seg = String ":" (name +:+ String "(" (expr +:+ ")")) /\
     name <> EmptyString /\ expr <> EmptyString /\
     Str.has_char "010" name = false /\ Str.has_char "010" expr = false) /\
  (forall name rest,
     seg = String ":" (name +:+ String "(" rest) ->
     Str.has_char "(" name = false -> regParamName seg = name).
Proof.
  intros Hch Hdone.
  pose proof (childOrCreate_Done_clashFree _ _ _ _ _ Hdone) as Hcf.
  destruct (childOrCreate_Done _ _ _ _ _ Hdone) as (Hseg & -> & Hc & ->).
  fold (childFor n seg) in Hc. subst c.
  destruct (childFor_header n seg Hch Hseg Hcf) as (Hpath & _ & Ht & Hn & _).
  split; [apply getChild_setChild_eq|]. split; [done|].
  split; [intros Hnone; unfold childFor; by rewrite Hnone|].
  split.
  { intros c0 Hc0. unfold childFor. rewrite Hc0. simpl.
    split; [done|]. by apply setChild_id. }
  split.
  { rewrite Ht, Hn. unfold freshChild, slotOf.
    destruct (String.eqb seg "*"); [done|].
    destruct (Str.is_char ":" (Str.first seg)); [|done].
    by destruct (matchRegShape seg). }
  split; [apply matchRegShape_spec|].
  intros name rest -> Hno. by apply regParamName_shape.
Qed.

(** C9: a segment of the regex shape whose expression does not compile is
    registered all the same.  At a node where it meets no other child,
    [childOrCreate] returns with a new regex child that carries the name and
    no compiled pattern; [addRoute] on a route made of such a segment
    returns, and the tree holds that child.  The error of [regexp.Compile]
    is not looked at: whether [childOrCreate] returns is settled by the
    children of the node alone, and the only panics [addRoute] can raise are
    its validation and conflict errors. *)
Theorem uncompilable_regex_registers :
  (forall (n : node) seg,
      matchRegShape seg = true ->
      compile (regExprText seg) = None ->
      regChild n = None -> paramChild n = None -> starChild n = None ->
      let c := Node nodeTypeReg seg None None None None
                    (regParamName seg) None None in
      childOrCreate n seg = Done (set_regChild n (Some c), SlotReg, c))
  /\ (forall (r : router) method p h seg,
        wellShaped p = true -> segments p = [seg] ->
        matchRegShape seg = true ->
        compile (regExprText seg) = None ->
        trees r !! method = None ->
        (addRoute r method p h).2 = Done tt
        /\ exists c,
             nodeAt (addRoute r method p h).1 method [SlotReg] = Some c
             /\ regExpr c = None /\ paramName c = regParamName seg
             /\ handler c = h)
  /\ (forall name expr,
        Str.has_char "(" name = false ->
        regParamName (String ":" (name +:+ String "(" (expr +:+ ")"))) = name
        /\ regExprText (String ":" (name +:+ String "(" (expr +:+ ")"))) = expr)
  /\ (forall (n : node) seg,
        seg <> EmptyString ->
        (exists res, childOrCreate n seg = Done res) <-> clashFree n seg = true)
  /\ (forall (r : router) method p h e,
        (addRoute r method p h).2 = Panicked e ->
        isValidationError e = true \/ isConflictError e = true).
Proof.
  split; [|split; [|split; [|split]]].
  - intros n seg Hm Hc Hrc Hpc Hsc c.
    pose proof (matchRegShape_slotOf seg Hm) as Hsl.
    rewrite childOrCreate_clashFree.
    + unfold childFor, freshChild. rewrite Hsl. simpl. rewrite Hrc, Hc. done.
    + apply matchRegShape_spec in Hm as (? & ? & -> & _). done.
    + unfold clashFree. by rewrite Hsl, Hrc, Hpc, Hsc.
  - intros r method p h seg Hw Hsegs Hm Hc Hnone.
    pose proof (matchRegShape_slotOf seg Hm) as Hsl.
    assert (seg <> EmptyString) as Hseg by (by intros ->).
    assert (forall sl, getChild (rootOf r method) sl = None) as Hleaf
      by (unfold rootOf; rewrite Hnone; by intros []).
    rewrite addRoute_eq, Hw. cbn [negb].
    rewrite (segments_dynamic_not_root p [] seg []) by (done || by rewrite Hsl).
    rewrite Hsegs, register_cons_ok by (done || by apply clashFree_leaf).
    rewrite childFor_leaf, register_nil, handler_freshChild by done.
    cbn [notNil fst snd]. split; [done|].
    unfold nodeAt. cbn [trees]. rewrite lookup_insert_eq. cbn [descend].
    rewrite Hsl, getChild_setChild_eq. eexists. split; [done|].
    unfold freshChild. rewrite Hsl. simpl. by rewrite Hc.
  - intros name expr Hno.
    split; [by apply regParamName_shape|by apply regExprText_shape].
  - intros n seg Hseg. split.
    + intros [[[n1 sl] c] Hd]. by apply childOrCreate_Done_clashFree in Hd.
    + intros Hcf. rewrite childOrCreate_clashFree by done. eauto.
  - intros r method p h e He.
    destruct (addRoute_Panicked r method p h e He) as [[Hv _]|Hc]; auto.
Qed.

End RouterFacts.

(** ** Concrete runs *)

Example split_runs :
  segments "/user/:id/abc" = ["user"; ":id"; "abc"]
  /\ segments "/a//b" = ["a"; EmptyString; "b"]
  /\ segments "/" = [EmptyString].
Proof. done. Qed.

Example regex_shape_runs :
  matchRegShape ":id(^[0-9]+$)" = true
  /\ regParamName ":id(^[0-9]+$)" = "id"
  /\ regExprText ":id(^[0-9]+$)" = "^[0-9]+$"
  /\ matchRegShape ":id" = false
  /\ matchRegShape ":id()" = false
  /\ matchRegShape ":(x)" = false.
Proof. done. Qed.

Example registration_runs :
  (route newRouter "GET" "/user/:id" 1).2 = Done tt
  /\ (route (route newRouter "GET" "/user/:id" 1).1 "GET" "/user/:name" 2).2
     = Panicked (ParamConflict ":id" ":name")
  /\ (route (route newRouter "GET" "/user/:id" 1).1 "GET" "/user/*" 2).2
     = Panicked StarHasParam
  /\ (route (route newRouter "GET" "/user/*" 1).1 "GET" "/user/:id" 2).2
     = Panicked (ParamHasStar ":id")
  /\ (route (route newRouter "GET" "/user/:id" 1).1 "POST" "/user/:name" 2).2
     = Done tt.
Proof. by vm_compute. Qed.

(** A handler that is [nil] sets nothing: the route stays free. *)
Example nil_handler_runs :
  let r1 := (addRoute newRouter "GET" "/a" None).1 in
  (addRoute newRouter "GET" "/a" None).2 = Done tt
  /\ handlerAt r1 "GET" [SlotStatic "a"] = None
  /\ (route r1 "GET" "/a" 1).2 = Done tt.
Proof. by vm_compute. Qed.

(** *** C2 *)

Lemma addRoute_twice_conflicts_witness :
  exists e,
    route (route newRouter "GET" "/user/home" 1).1 "GET" "/user/home" 2
    = ((route newRouter "GET" "/user/home" 1).1, Panicked e)
    /\ isConflictError e = true.
Proof.
  refine (proj1 (addRoute_twice_conflicts (ext := literalExternals)
                   newRouter _ "GET" "/user/home" 1 _) (Some 2)).
  vm_compute. reflexivity.
Defined.

(** *** C3 *)

(** The equivalence fails where a conflict comes first: after [/*],
    the path [/:id//b] has an empty segment, yet [addRoute] stops on [:id]
    with a conflict error, before it gets to the empty segment. *)
Lemma validation_iff_counterexample :
  let r1 := (route newRouter "GET" "/*" 1).1 in
  invalidPath "/:id//b" = true
  /\ (route r1 "GET" "/:id//b" 2).2 = Panicked (ParamHasStar ":id")
  /\ ~ (exists e, (route r1 "GET" "/:id//b" 2).2 = Panicked e
                  /\ isValidationError e = true).
Proof.
  split; [by vm_compute|]. split; [by vm_compute|].
  intros (e & He & Hv). vm_compute in He. by simplify_eq.
Qed.

Lemma validation_errors_witness :
  (exists e, (route newRouter "GET" "//a" 1).2 = Panicked e
             /\ isValidationError e = true)
  /\ (route (route newRouter "GET" "/*" 1).1 "GET" "/a//b" 2).2
     = Panicked (IllegalRoute "/a//b").
Proof.
  split.
  - apply (proj1 (proj2 (validation_errors (ext := literalExternals)
                           newRouter "GET" "//a" (Some 1)))).
    + vm_compute. reflexivity.
    + vm_compute. reflexivity.
  - apply (validation_errors (ext := literalExternals)
             (route newRouter "GET" "/*" 1).1 "GET" "/a//b" (Some 2)).
Defined.

(** *** C4 *)

Lemma exclusivity_invariant_witness :
  AllRouterNodes (fun n => exclusive n = true)
    (route newRouter "GET" "/user/:id" 1).1.
Proof.
  refine (proj1 (exclusivity_invariant (ext := literalExternals)
                   (route newRouter "GET" "/user/:id" 1).1 _)).
  apply (built_add (ext := literalExternals) newRouter "GET" "/user/:id" (Some 1)).
  - apply built_new.
  - vm_compute. reflexivity.
Defined.

(** *** C5 *)

Lemma childOrCreate_classification_witness :
  let c := Node nodeTypeReg ":id(x)" None None None None "id" None (Some "x") in
  let n1 := set_regChild emptyNode (Some c) in
  getChild n1 SlotReg = Some c /\ path c = ":id(x)"
  /\ typ c = nodeTypeReg /\ paramName c = regParamName ":id(x)"
  /\ regParamName ":id(x)" = "id".
Proof.
  intros c n1.
  destruct (childOrCreate_classification (ext := literalExternals)
              emptyNode n1 ":id(x)" SlotReg c)
    as (Hget & Hpath & _ & _ & Hkind & _ & Hname).
  - intros sl c0. destruct sl; simpl; try discriminate;
      rewrite lookup_empty; discriminate.
  - vm_compute. reflexivity.
  - destruct Hkind as (_ & Htyp & Hparam).
    split; [exact Hget|]. split; [exact Hpath|]. split; [exact Htyp|].
    split; [exact Hparam|]. apply (Hname "id" "x)"); reflexivity.
Defined.

(** *** C6 *)

Lemma same_kind_reregistration_witness :
  exists e,
    route (route newRouter "GET" "/user/:id" 1).1 "GET" "/user/:name" 2
    = ((route newRouter "GET" "/user/:id" 1).1, Panicked e)
    /\ isConflictError e = true.
Proof.
  apply (proj2 (proj2 (same_kind_reregistration (ext := literalExternals)))
           newRouter _ "GET" "/user/:id" (Some 1) "/user/:name" (Some 2)
           ["user"] ":id" [] ":name" []).
  - vm_compute. reflexivity.
  - reflexivity.
  - reflexivity.
  - reflexivity.
  - right. reflexivity.
  - reflexivity.
  - discriminate.
Defined.

(** *** C7 *)

Lemma mixed_kinds_conflict_witness :
  (exists e,
      route (route newRouter "GET" "/user/:id" 1).1 "GET" "/user/*" 2
      = ((route newRouter "GET" "/user/:id" 1).1, Panicked e)
      /\ isConflictError e = true)
  /\ (exists e,
        route (route newRouter "GET" "/user/*" 1).1 "GET" "/user/:id(x)" 2
        = ((route newRouter "GET" "/user/*" 1).1, Panicked e)
        /\ isConflictError e = true).
Proof.
  split.
  - apply (proj2 (mixed_kinds_conflict (ext := literalExternals))
             newRouter _ "GET" "/user/:id" (Some 1) "/user/*" (Some 2)
             ["user"] ":id" [] "*" []);
      try reflexivity; discriminate.
  - apply (proj2 (mixed_kinds_conflict (ext := literalExternals))
             newRouter _ "GET" "/user/*" (Some 1) "/user/:id(x)" (Some 2)
             ["user"] "*" [] ":id(x)" []);
      try reflexivity; discriminate.
Defined.

(** *** C8 *)

Lemma addRoute_root_path_witness :
  route newRouter "GET" "/" 1
  = (Router {[ "GET" := set_handler emptyNode (Some 1) ]}, Done tt)
  /\ route (route newRouter "GET" "/" 1).1 "GET" "/" 2
     = ((route newRouter "GET" "/" 1).1, Panicked RootConflict).
Proof.
  split.
  - apply (proj1 (addRoute_root_path (ext := literalExternals) newRouter "GET" (Some 1))).
  - apply (proj1 (addRoute_root_path (ext := literalExternals)
                    (route newRouter "GET" "/" 1).1 "GET" (Some 2))).
Defined.

(** *** C9 *)

Lemma uncompilable_regex_registers_witness :
  compile (regExprText ":id(a(b)") = None
  /\ (route newRouter "GET" "/:id(a(b)" 1).2 = Done tt
  /\ exists c,
       nodeAt (route newRouter "GET" "/:id(a(b)" 1).1 "GET" [SlotReg] = Some c
       /\ regExpr c = None /\ paramName c = "id" /\ handler c = Some 1.
Proof.
  split; [reflexivity|].
  apply (proj1 (proj2 (uncompilable_regex_registers (ext := literalExternals)))
           newRouter "GET" "/:id(a(b)" (Some 1) ":id(a(b)"); reflexivity.
Defined.

(** *** C10 *)


(** * Further properties of registration *)

Section RegistrationFacts.

Context `{ext : Externals}.

(** ** [addRoute] as a walk from the root *)

Lemma walkOf_root : walkOf "/" = [].
Proof. done. Qed.

Lemma walkOf_other p : String.eqb p "/" = false -> walkOf p = segments p.
Proof. unfold walkOf. by intros ->. Qed.

Lemma rootOf_lookup (r : router) method root :
  trees r !! method = Some root -> rootOf r method = root.
Proof. unfold rootOf. by intros ->. Qed.

Lemma rootOf_bare (r : router) method :
  trees r !! method = None -> bare (rootOf r method).
Proof. unfold rootOf. intros ->. split; [by intros []|done]. Qed.

Lemma router_insert_id (r : router) method root :
  trees r !! method = Some root ->
  Router (<[method := root]> (trees r)) = r.
Proof. destruct r as [ts]. simpl. intros Hl. by rewrite insert_id. Qed.

(** The root path is the walk over no segment: the two branches of
    [addRoute] differ only by the text of the conflict panic. *)
Lemma addRoute_walk (r : router) method p h :
  wellShaped p = true ->
  (addRoute r method p h).1
  = Router (<[method := (register p (rootOf r method) (walkOf p) h).1]>
              (trees r))
  /\ ((addRoute r method p h).2 = (register p (rootOf r method) (walkOf p) h).2
      \/ ((addRoute r method p h).2 = Panicked RootConflict
          /\ (register p (rootOf r method) (walkOf p) h).2
             = Panicked (RouteConflict p))).
Proof.
  intros Hw. rewrite addRoute_eq, Hw. cbn [negb]. unfold walkOf.
  destruct (String.eqb p "/") eqn:Hp; [|auto].
  rewrite register_nil.
  destruct (notNil (handler (rootOf r method))) eqn:Hh; cbn [fst snd]; [|auto].
  split; [|auto]. symmetry. apply router_insert_id.
  unfold rootOf in *. destruct (trees r !! method); [done|]. done.
Qed.

Lemma addRoute_Done (r r' : router) method p h :
  addRoute r method p h = (r', Done tt) ->
  wellShaped p = true
  /\ exists n', register p (rootOf r method) (walkOf p) h = (n', Done tt)
                /\ r' = Router (<[method := n']> (trees r)).
Proof.
  intros Hadd. destruct (wellShaped p) eqn:Hw;
    [|by rewrite addRoute_eq, Hw in Hadd].
  split; [done|].
  destruct (addRoute_walk r method p h Hw) as [Hst Hout].
  rewrite Hadd in Hst, Hout. cbn [fst snd] in *.
  destruct (register p (rootOf r method) (walkOf p) h) as [n' o].
  cbn [fst snd] in *. exists n'. destruct Hout as [<-|[? _]]; done.
Qed.

Lemma addRoute_Done_intro (r : router) method p h n' :
  wellShaped p = true ->
  register p (rootOf r method) (walkOf p) h = (n', Done tt) ->
  addRoute r method p h = (Router (<[method := n']> (trees r)), Done tt).
Proof.
  intros Hw Hreg. destruct (addRoute_walk r method p h Hw) as [Hst Hout].
  rewrite Hreg in Hst, Hout. cbn [fst snd] in *.
  destruct (addRoute r method p h) as [r' o]. cbn [fst snd] in *.
  destruct Hout as [->|[_ ?]]; [by subst|done].
Qed.

(** ** Handlers below a node *)

Lemma handlerIn_nil (n : node) : handlerIn n [] = handler n.
Proof. done. Qed.

Lemma handlerIn_cons (n : node) sl sls :
  handlerIn n (sl :: sls)
  = match getChild n sl with
    | Some c => handlerIn c sls
    | None => None
    end.
Proof. unfold handlerIn. simpl. by destruct (getChild n sl). Qed.

Lemma handlerIn_bare (n : node) sls : bare n -> handlerIn n sls = None.
Proof. intros [Hleaf Hh]. by apply descend_leaf_handler. Qed.

Lemma bare_freshChild seg : bare (freshChild seg).
Proof. split; [apply getChild_freshChild|apply handler_freshChild]. Qed.

Lemma handlerIn_childFor (n : node) seg sls :
  handlerIn (childFor n seg) sls = handlerIn n (slotOf seg :: sls).
Proof.
  rewrite handlerIn_cons. unfold childFor.
  destruct (getChild n (slotOf seg)); simpl; [done|].
  apply handlerIn_bare, bare_freshChild.
Qed.

Lemma handlerAt_handlerIn (r : router) method sls :
  handlerAt r method sls
  = match trees r !! method with
    | Some root => handlerIn root sls
    | None => None
    end.
Proof. unfold handlerAt, nodeAt, handlerIn. by destruct (trees r !! method). Qed.

Lemma handlerAt_rootOf (r : router) method sls :
  handlerAt r method sls = handlerIn (rootOf r method) sls.
Proof.
  rewrite handlerAt_handlerIn. unfold rootOf.
  destruct (trees r !! method); simpl; [done|].
  symmetry. apply handlerIn_bare. split; [by intros []|done].
Qed.

(** The walk touches one handler at most: the one at the end of the
    segments, and only when it returns. *)
Lemma register_handlers fullPath segs h :
  forall (n : node) sls,
    handlerIn (register fullPath n segs h).1 sls
    = if isDone (register fullPath n segs h).2
         && bool_decide (sls = slotOf <$> segs)
      then h else handlerIn n sls.
Proof.
  induction segs as [|seg rest IH]; intros n sls.
  - rewrite register_nil.
    destruct (notNil (handler n)) eqn:Hh; cbn [fst snd isDone andb]; [done|].
    destruct sls as [|sl sls]; [done|].
    rewrite bool_decide_eq_false_2 by done.
    rewrite !handlerIn_cons. by rewrite getChild_set_handler.
  - destruct (String.eqb_spec seg EmptyString) as [->|Hseg]; [done|].
    destruct (clashFree n seg) eqn:Hcf.
    + rewrite register_cons_ok by done. cbn [fst snd fmap list_fmap].
      destruct sls as [|sl sls].
      * rewrite bool_decide_eq_false_2 by done. rewrite andb_false_r.
        rewrite !handlerIn_nil. apply handler_setChild.
      * rewrite handlerIn_cons.
        destruct (decide (slotOf seg = sl)) as [<-|Hsl].
        -- rewrite getChild_setChild_eq, IH, handlerIn_childFor.
           replace (bool_decide (slotOf seg :: sls = slotOf seg :: (slotOf <$> rest)))
             with (bool_decide (sls = slotOf <$> rest)); [done|].
           apply bool_decide_ext. split; [by intros ->|by intros [= ->]].
        -- rewrite getChild_setChild_ne by done.
           rewrite bool_decide_eq_false_2 by (by intros [= ? _]).
           by rewrite andb_false_r, handlerIn_cons.
    + by destruct (register_cons_clash fullPath n seg rest h Hseg Hcf)
        as (e & -> & _).
Qed.

(** ** What a walk that panics leaves behind *)

(** Below a node without children and handler nothing can clash: the walk
    returns or stops on an empty segment. *)
Lemma register_bare fullPath segs h :
  forall n : node, bare n ->
    (register fullPath n segs h).2 = Done tt
    \/ (register fullPath n segs h).2 = Panicked (IllegalRoute fullPath).
Proof.
  induction segs as [|seg rest IH]; intros n [Hleaf Hh].
  - rewrite register_nil, Hh. by left.
  - destruct (String.eqb_spec seg EmptyString) as [->|Hseg]; [by right|].
    rewrite register_cons_ok by (done || by apply clashFree_leaf).
    cbn [snd]. rewrite childFor_leaf by done. apply IH, bare_freshChild.
Qed.

(** A walk that panics with a conflict has gone through nodes that were
    there already, and has written nothing. *)
Lemma register_conflict_unchanged fullPath segs h e :
  forall n n' : node,
    register fullPath n segs h = (n', Panicked e) ->
    isConflictError e = true -> n' = n.
Proof.
  induction segs as [|seg rest IH]; intros n n' Hreg He.
  - rewrite register_nil in Hreg. destruct (notNil (handler n)); by simplify_eq.
  - destruct (String.eqb_spec seg EmptyString) as [->|Hseg].
    { rewrite register_cons_empty in Hreg. by simplify_eq. }
    destruct (clashFree n seg) eqn:Hcf.
    + rewrite register_cons_ok in Hreg by done.
      destruct (register fullPath (childFor n seg) rest h) as [c' o] eqn:Hc'.
      cbn [fst snd] in Hreg. simplify_eq.
      rewrite (IH _ _ Hc' He). unfold childFor in *.
      destruct (getChild n (slotOf seg)) as [c|] eqn:Hc; simpl in *.
      * by apply setChild_id.
      * destruct (register_bare fullPath rest h _ (bare_freshChild seg))
          as [Hd|Hi]; [rewrite Hc' in Hd|rewrite Hc' in Hi];
          simpl in *; by simplify_eq.
    + destruct (register_cons_clash fullPath n seg rest h Hseg Hcf)
        as (e' & He' & _). rewrite He' in Hreg. by simplify_eq.
Qed.

Lemma isDone_addRoute (r : router) method p h :
  wellShaped p = true ->
  isDone (addRoute r method p h).2
  = isDone (register p (rootOf r method) (walkOf p) h).2.
Proof.
  intros Hw. destruct (addRoute_walk r method p h Hw) as [_ [->|[-> ->]]]; done.
Qed.

(** X1: [addRoute] works on the tree of its method alone: the tree of every
    other method is left as it is, whatever the outcome, and no method ever
    loses its tree. *)
Theorem addRoute_other_methods (r : router) method p h method' :
  method' <> method ->
  trees (addRoute r method p h).1 !! method' = trees r !! method'
  /\ (is_Some (trees r !! method) ->
      is_Some (trees (addRoute r method p h).1 !! method)).
Proof.
  intros Hne. rewrite addRoute_eq.
  destruct (negb (wellShaped p)); [done|].
  destruct (String.eqb p "/").
  - destruct (notNil (handler (rootOf r method))); [done|]. cbn [fst trees].
    rewrite lookup_insert_ne, lookup_insert_eq by done. eauto.
  - cbn [fst trees]. rewrite lookup_insert_ne, lookup_insert_eq by done. eauto.
Qed.

Lemma addRoute_handlerAt (r : router) method p h method0 sls :
  handlerAt (addRoute r method p h).1 method0 sls
  = if isDone (addRoute r method p h).2
       && bool_decide (method0 = method /\ sls = positionOf p)
    then h else handlerAt r method0 sls.
Proof.
  destruct (wellShaped p) eqn:Hw; [|by rewrite addRoute_eq, Hw].
  rewrite isDone_addRoute by done.
  destruct (addRoute_walk r method p h Hw) as [-> _].
  rewrite handlerAt_handlerIn. cbn [trees].
  destruct (decide (method0 = method)) as [->|Hm].
  - rewrite lookup_insert_eq, register_handlers, handlerAt_rootOf.
    unfold positionOf.
    replace (bool_decide (method = method /\ sls = slotOf <$> walkOf p))
      with (bool_decide (sls = slotOf <$> walkOf p)); [done|].
    apply bool_decide_ext. split; [done|by intros [_ ?]].
  - rewrite lookup_insert_ne by done.
    rewrite bool_decide_eq_false_2 by (by intros [? _]).
    by rewrite andb_false_r, handlerAt_handlerIn.
Qed.

(** X2: the handlers after a call of [addRoute].  A call that returns sets
    the handler at the position of its path, under its method, and changes
    no other; a call that panics changes none, at any position of any
    tree. *)
Theorem addRoute_handlers (r : router) method p h method0 sls :
  handlerAt (addRoute r method p h).1 method0 sls
  = if isDone (addRoute r method p h).2
       && bool_decide (method0 = method /\ sls = positionOf p)
    then h else handlerAt r method0 sls.
Proof. apply addRoute_handlerAt. Qed.

(** X3: of all the panics of [addRoute] only the one on an empty segment
    can leave something behind.  A call refused by one of the three guards
    or by a conflict (a handler already set, or children that cannot share a
    position) leaves the router exactly as it was. *)
Theorem addRoute_panic_unchanged (r r' : router) method p h e :
  addRoute r method p h = (r', Panicked e) ->
  (forall q, e <> IllegalRoute q) ->
  r' = r.
Proof.
  intros Hadd Hne.
  destruct (wellShaped p) eqn:Hw;
    [|rewrite addRoute_eq, Hw in Hadd; cbn [negb] in Hadd; by simplify_eq].
  destruct (addRoute_walk r method p h Hw) as [Hst Hout].
  rewrite Hadd in Hst, Hout. cbn [fst snd] in *.
  destruct (register p (rootOf r method) (walkOf p) h) as [n' o] eqn:Hreg.
  cbn [fst snd] in *.
  assert (exists e', o = Panicked e' /\ isConflictError e' = true)
    as (e' & -> & He').
  { destruct Hout as [<-|[_ ->]]; [|eauto].
    exists e. split; [done|].
    pose proof (register_Panicked p (walkOf p) h e (rootOf r method)) as Hp.
    rewrite Hreg in Hp. destruct (Hp eq_refl) as [[-> _]|Hc]; [|done].
    by destruct (Hne p). }
  rewrite (register_conflict_unchanged _ _ _ _ _ _ Hreg He') in Hst.
  subst r'. apply router_insert_id.
  destruct (trees r !! method) as [root|] eqn:Hroot;
    [by rewrite (rootOf_lookup r method root)|].
  destruct (register_bare p (walkOf p) h _ (rootOf_bare r method Hroot))
    as [Hd|Hi]; [rewrite Hreg in Hd|rewrite Hreg in Hi];
    cbn [snd] in *; by simplify_eq.
Qed.

(** Nodes are never removed nor rewritten by the walk. *)
Lemma register_grows fullPath segs h :
  forall (n : node) sls x,
    descend n sls = Some x ->
    exists x', descend (register fullPath n segs h).1 sls = Some x'
               /\ sameHeader x x'.
Proof.
  assert (forall (n : node) sls x,
    descend n sls = Some x ->
    exists x', descend n sls = Some x' /\ sameHeader x x') as Hsame
    by (intros n sls x Hx; by exists x).
  induction segs as [|seg rest IH]; intros n sls x Hx.
  - rewrite register_nil. destruct (notNil (handler n)); cbn [fst]; [auto|].
    destruct sls as [|sl sls]; simpl in *.
    + simplify_eq. by eexists.
    + rewrite getChild_set_handler. apply (Hsame n (sl :: sls) x Hx).
  - destruct (String.eqb_spec seg EmptyString) as [->|Hseg];
      [rewrite register_cons_empty; auto|].
    destruct (clashFree n seg) eqn:Hcf.
    + rewrite register_cons_ok by done. cbn [fst].
      destruct sls as [|sl sls]; simpl in *.
      * simplify_eq. eexists. split; [done|]. apply sameHeader_setChild.
      * destruct (getChild n sl) as [y|] eqn:Hy; [|done].
        destruct (decide (slotOf seg = sl)) as [<-|Hsl].
        -- rewrite getChild_setChild_eq.
           unfold childFor. rewrite Hy. simpl. by apply IH.
        -- rewrite getChild_setChild_ne, Hy by done. by exists x.
    + destruct (register_cons_clash fullPath n seg rest h Hseg Hcf)
        as (e & -> & _). auto.
Qed.

(** X4: registration only grows the trees.  A node that is in a tree before
    a call of [addRoute] is at the same position after it, returning or not,
    with the same segment text, type, parameter name and pattern. *)
Theorem addRoute_grows (r : router) method p h method0 sls x :
  nodeAt r method0 sls = Some x ->
  exists x', nodeAt (addRoute r method p h).1 method0 sls = Some x'
             /\ sameHeader x x'.
Proof.
  unfold nodeAt. intros Hx.
  destruct (trees r !! method0) as [root0|] eqn:Hroot0; [|done].
  destruct (wellShaped p) eqn:Hw;
    [|rewrite addRoute_eq, Hw; cbn [negb fst]; rewrite Hroot0; by exists x].
  destruct (addRoute_walk r method p h Hw) as [-> _]. cbn [trees].
  destruct (decide (method0 = method)) as [->|Hm].
  - rewrite lookup_insert_eq, (rootOf_lookup r method root0) by done.
    by apply register_grows.
  - rewrite lookup_insert_ne, Hroot0 by done. by exists x.
Qed.

(** ** The shape of the trees *)

Lemma is_char_true c o : Str.is_char c o = true <-> o = Some c.
Proof.
  destruct o as [d|]; simpl; [|done]. rewrite Ascii.eqb_eq. naive_solver.
Qed.

Lemma slotOf_reg seg :
  slotOf seg = SlotReg ->
  matchRegShape seg = true /\ Str.first seg = Some ":"%char.
Proof.
  unfold slotOf. destruct (String.eqb seg "*"); [done|].
  destruct (Str.is_char ":" (Str.first seg)) eqn:Hc; [|done].
  apply is_char_true in Hc. by destruct (matchRegShape seg).
Qed.

Lemma slotOf_param seg :
  slotOf seg = SlotParam ->
  matchRegShape seg = false /\ Str.first seg = Some ":"%char.
Proof.
  unfold slotOf. destruct (String.eqb seg "*"); [done|].
  destruct (Str.is_char ":" (Str.first seg)) eqn:Hc; [|done].
  apply is_char_true in Hc. by destruct (matchRegShape seg).
Qed.

Lemma slotOf_static_inv seg key :
  slotOf seg = SlotStatic key ->
  key = seg /\ seg <> "*" /\ Str.first seg <> Some ":"%char.
Proof.
  unfold slotOf. destruct (String.eqb_spec seg "*") as [|Hne]; [done|].
  destruct (Str.is_char ":" (Str.first seg)) eqn:Hc;
    [by destruct (matchRegShape seg)|].
  intros [= <-]. split; [done|]. split; [done|].
  intros Hf. apply is_char_true in Hf. congruence.
Qed.

Lemma nodeOk_childShape (x : node) sl c :
  nodeOk x -> getChild x sl = Some c -> childShape sl c.
Proof.
  intros [_ Hch] Hc. destruct (Hch sl c Hc) as (Hsl & Hne & Ht & Hn & Hr).
  unfold freshChild in Ht, Hn, Hr. rewrite Hsl in Ht, Hn, Hr.
  destruct sl as [| | |key]; simpl in *.
  - apply slotOf_star in Hsl. done.
  - by destruct (slotOf_reg _ Hsl).
  - by destruct (slotOf_param _ Hsl).
  - destruct (slotOf_static_inv _ _ Hsl) as (-> & Hstar & Hcolon). done.
Qed.

Lemma sameHeader_trans (a b c : node) :
  sameHeader a b -> sameHeader b c -> sameHeader a c.
Proof.
  intros (? & ? & ? & ?) (? & ? & ? & ?). repeat split; congruence.
Qed.

Lemma reachable_root_header (r : router) :
  reachable r ->
  forall method root, trees r !! method = Some root ->
    sameHeader (newNode nodeTypeStatic "/") root.
Proof.
  induction 1 as [|r method p h _ IH]; intros method0 root0;
    [unfold newRouter; simpl; by rewrite lookup_empty|].
  assert (sameHeader (newNode nodeTypeStatic "/") (rootOf r method)) as Hroot.
  { unfold rootOf. destruct (trees r !! method) as [root|] eqn:Hl; simpl;
      [by apply (IH method)|done]. }
  rewrite addRoute_eq. destruct (negb (wellShaped p)); [apply IH|].
  destruct (String.eqb p "/").
  - destruct (notNil (handler (rootOf r method))); [apply IH|]. cbn [fst trees].
    destruct (decide (method = method0)) as [<-|Hm].
    + rewrite lookup_insert_eq. by intros [= <-].
    + rewrite lookup_insert_ne by done. apply IH.
  - cbn [fst trees]. destruct (decide (method = method0)) as [<-|Hm].
    + rewrite lookup_insert_eq. intros [= <-].
      eapply sameHeader_trans; [exact Hroot|apply register_sameHeader].
    + rewrite lookup_insert_ne by done. apply IH.
Qed.

(** X5: the trees of a router made by [newRouter] and [addRoute] are well
    typed.  Every root is a static node with the text ["/"]; every static
    child is stored under its own text, which is not empty, not ["*"] and
    does not start with a colon; the wildcard child has the text ["*"]; the
    param child has a text that starts with a colon and is not of the regex
    shape, and its name is the text after the colon; the regex child has a
    text of the regex shape, its name is the text up to the parenthesis and
    its pattern is what [regexp.Compile] gave for the expression; and only
    regex nodes carry a pattern. *)
Theorem reachable_tree_shape (r : router) :
  reachable r ->
  (forall method root, trees r !! method = Some root ->
     path root = "/" /\ typ root = nodeTypeStatic /\ regExpr root = None)
  /\ (forall method sls x sl c,
        nodeAt r method sls = Some x -> getChild x sl = Some c ->
        childShape sl c).
Proof.
  intros Hr. split.
  - intros method root Hroot.
    by destruct (reachable_root_header r Hr method root Hroot)
      as (<- & <- & _ & <-).
  - intros method sls x sl c Hx Hc. unfold nodeAt in Hx.
    destruct (trees r !! method) as [root|] eqn:Hroot; [|done].
    eapply nodeOk_childShape; [|exact Hc].
    by apply (reachable_nodeOk r Hr method root Hroot sls x).
Qed.

(** ** A [nil] handler *)

Lemma set_handler_None (n : node) : handler n = None -> set_handler n None = n.
Proof. destruct n. simpl. by intros ->. Qed.

Lemma register_after_nil fullPath fullPath' segs h' :
  forall n n1 : node,
    register fullPath n segs None = (n1, Done tt) ->
    register fullPath' n1 segs h' = register fullPath' n segs h'.
Proof.
  induction segs as [|seg rest IH]; intros n n1 Hreg.
  - rewrite register_nil in Hreg.
    destruct (notNil (handler n)) eqn:Hh; simplify_eq.
    rewrite set_handler_None; [done|]. by destruct (handler n).
  - apply register_Done_cons in Hreg as (Hseg & Hcf & Hrest & ->).
    rewrite register_cons_replay by (done || apply register_path).
    destruct (register fullPath (childFor n seg) rest None)
      as [c1 o] eqn:Hc1. cbn [fst snd] in *. subst o.
    by rewrite (IH _ _ Hc1), register_cons_ok.
Qed.

(** A walk returns only when the node it ends on had no handler. *)
Lemma register_Done_free fullPath segs h :
  forall n n' : node,
    register fullPath n segs h = (n', Done tt) ->
    handlerIn n (slotOf <$> segs) = None.
Proof.
  induction segs as [|seg rest IH]; intros n n' Hreg.
  - rewrite register_nil in Hreg. rewrite handlerIn_nil.
    destruct (handler n); by simplify_eq.
  - apply register_Done_cons in Hreg as (Hseg & Hcf & Hrest & _).
    cbn [fmap list_fmap]. rewrite <- handlerIn_childFor.
    destruct (register fullPath (childFor n seg) rest h) as [c' o] eqn:Hc'.
    cbn [snd] in Hrest. subst o. by apply (IH _ _ Hc').
Qed.

Lemma addRoute_Done_free (r r' : router) method p h :
  addRoute r method p h = (r', Done tt) ->
  handlerAt r method (positionOf p) = None.
Proof.
  intros Hadd. apply addRoute_Done in Hadd as (_ & n' & Hreg & _).
  rewrite handlerAt_rootOf. by apply (register_Done_free _ _ _ _ _ Hreg).
Qed.

(** X6: [addRoute] does not refuse a [nil] handler.  When such a call
    returns no handler has changed, and the route is as free as before: any
    later registration of the same path under the same method gives what it
    would have given without the call. *)
Theorem addRoute_nil_handler (r r1 : router) method p :
  addRoute r method p None = (r1, Done tt) ->
  (forall method0 sls, handlerAt r1 method0 sls = handlerAt r method0 sls)
  /\ (forall h', addRoute r1 method p h' = addRoute r method p h').
Proof.
  intros Hadd. split.
  - intros method0 sls.
    pose proof (addRoute_handlerAt r method p None method0 sls) as Hh.
    rewrite Hadd in Hh. cbn [fst snd isDone andb] in Hh. rewrite Hh.
    case_bool_decide as Hpos; [|done]. destruct Hpos as [-> ->].
    symmetry. by apply (addRoute_Done_free r r1 method p None).
  - intros h'. apply addRoute_Done in Hadd as (Hw & n' & Hreg & ->).
    rewrite !addRoute_eq, Hw. cbn [negb]. rewrite rootOf_insert. cbn [trees].
    destruct (String.eqb p "/") eqn:Hp.
    + unfold walkOf in Hreg. rewrite Hp, register_nil in Hreg.
      destruct (notNil (handler (rootOf r method))) eqn:Hh; simplify_eq.
      rewrite set_handler_None by (by destruct (handler (rootOf r method))).
      rewrite Hh. by rewrite insert_insert_eq.
    + rewrite walkOf_other in Hreg by done.
      rewrite (register_after_nil p p (segments p) h' _ _ Hreg).
      by rewrite insert_insert_eq.
Qed.

(** ** The order of registration *)

Lemma setChild_comm (n : node) sl1 sl2 c1 c2 :
  sl1 <> sl2 ->
  setChild (setChild n sl1 c1) sl2 c2 = setChild (setChild n sl2 c2) sl1 c1.
Proof.
  intros Hne. destruct sl1, sl2; try done.
  unfold setChild, set_children. simpl. f_equal. f_equal.
  apply insert_insert_ne. congruence.
Qed.

Lemma set_handler_setChild (n : node) sl c h :
  set_handler (setChild n sl c) h = setChild (set_handler n h) sl c.
Proof. by destruct sl. Qed.

Lemma clashFree_set_handler (n : node) h seg :
  clashFree (set_handler n h) seg = clashFree n seg.
Proof. done. Qed.

Lemma childFor_set_handler (n : node) h seg :
  childFor (set_handler n h) seg = childFor n seg.
Proof. unfold childFor. by rewrite getChild_set_handler. Qed.

Lemma childFor_setChild_ne (n : node) sl c seg :
  sl <> slotOf seg -> childFor (setChild n sl c) seg = childFor n seg.
Proof. intros Hne. unfold childFor. by rewrite getChild_setChild_ne. Qed.

(** Two segments that resolve to the same slot of a node, one after the
    other without a clash, are the same segment. *)
Lemma same_slot_same_segment (n : node) s1 s2 c1 :
  s1 <> EmptyString -> clashFree n s1 = true ->
  path c1 = path (childFor n s1) ->
  slotOf s1 = slotOf s2 ->
  clashFree (setChild n (slotOf s1) c1) s2 = true ->
  s1 = s2.
Proof.
  intros Hs1 Hcf Hpath Hsl Hcf2.
  pose proof (childFor_path_dynamic n s1 Hs1 Hcf) as Hdyn.
  unfold clashFree in Hcf2. rewrite <- Hsl in Hcf2.
  destruct (slotOf s1) eqn:Hsl1; simpl in Hcf2.
  - symmetry in Hsl. apply slotOf_star in Hsl1, Hsl. congruence.
  - apply andb_prop in Hcf2 as [_ Heq]. apply String.eqb_eq in Heq.
    rewrite <- Heq, Hpath. symmetry. apply Hdyn. auto.
  - apply andb_prop in Hcf2 as [_ Heq]. apply String.eqb_eq in Heq.
    rewrite <- Heq, Hpath. symmetry. apply Hdyn. auto.
  - symmetry in Hsl. apply slotOf_static in Hsl1, Hsl. congruence.
Qed.

Lemma clashFree_other_slot (n : node) s1 s2 c1 c2 :
  slotOf s1 <> slotOf s2 -> clashFree n s1 = true ->
  clashFree (setChild n (slotOf s1) c1) s2 = true ->
  clashFree n s2 = true /\ clashFree (setChild n (slotOf s2) c2) s1 = true.
Proof.
  unfold clashFree.
  destruct (slotOf s1), (slotOf s2); simpl; try done;
    destruct (starChild n), (regChild n), (paramChild n); simpl; done.
Qed.

(** Two walks that both return, one after the other, return in the other
    order too and build the same tree. *)
Lemma register_commute q1 q2 (h1 h2 : HandleFunc) :
  forall segs1 segs2 (n n1 n2 : node),
    register q1 n segs1 (Some h1) = (n1, Done tt) ->
    register q2 n1 segs2 (Some h2) = (n2, Done tt) ->
    exists n1', register q2 n segs2 (Some h2) = (n1', Done tt)
                /\ register q1 n1' segs1 (Some h1) = (n2, Done tt).
Proof.
  induction segs1 as [|s1 rest1 IH]; intros [|s2 rest2] n n1 n2 H1 H2.
  - rewrite register_nil in H1. by destruct (notNil (handler n)); simplify_eq.
  - rewrite register_nil in H1.
    destruct (notNil (handler n)) eqn:Hh; simplify_eq.
    apply register_Done_cons in H2 as (Hs2 & Hcf2 & Hrest2 & ->).
    rewrite clashFree_set_handler in Hcf2.
    rewrite childFor_set_handler in Hrest2 |- *.
    eexists. split.
    + rewrite register_cons_ok by done. by rewrite Hrest2.
    + rewrite register_nil, handler_setChild, Hh.
      by rewrite set_handler_setChild.
  - apply register_Done_cons in H1 as (Hs1 & Hcf1 & Hrest1 & ->).
    rewrite register_nil, handler_setChild in H2.
    destruct (notNil (handler n)) eqn:Hh; simplify_eq.
    eexists. split.
    + by rewrite register_nil, Hh.
    + rewrite register_cons_ok by done.
      rewrite childFor_set_handler, Hrest1.
      by rewrite set_handler_setChild.
  - apply register_Done_cons in H1 as (Hs1 & Hcf1 & Hrest1 & ->).
    apply register_Done_cons in H2 as (Hs2 & Hcf2 & Hrest2 & ->).
    destruct (register q1 (childFor n s1) rest1 (Some h1)) as [c1 o1] eqn:Hc1.
    cbn [fst snd] in *. subst o1.
    assert (path c1 = path (childFor n s1)) as Hpath1.
    { change c1 with (c1, Done tt).1. rewrite <- Hc1. apply register_path. }
    destruct (decide (slotOf s1 = slotOf s2)) as [Hsl|Hsl].
    + pose proof (same_slot_same_segment n s1 s2 c1 Hs1 Hcf1 Hpath1 Hsl Hcf2)
        as <-.
      rewrite childFor_setChild in Hrest2 |- *.
      destruct (register q2 c1 rest2 (Some h2)) as [c2 o2] eqn:Hc2.
      cbn [fst snd] in *. subst o2.
      destruct (IH rest2 _ _ _ Hc1 Hc2) as (c' & Hc' & Hc'').
      exists (setChild n (slotOf s1) c'). split.
      * rewrite register_cons_ok by done. by rewrite Hc'.
      * rewrite register_cons_replay; [|done|done|].
        -- by rewrite Hc'', setChild_setChild.
        -- change c' with (c', Done tt).1. rewrite <- Hc'.
           apply register_path.
    + rewrite childFor_setChild_ne in Hrest2 |- * by done.
      destruct (register q2 (childFor n s2) rest2 (Some h2))
        as [c2 o2] eqn:Hc2. cbn [fst snd] in *. subst o2.
      destruct (clashFree_other_slot n s1 s2 c1 c2 Hsl Hcf1 Hcf2)
        as [Hcf2' Hcf1'].
      exists (setChild n (slotOf s2) c2). split.
      * rewrite register_cons_ok by done. by rewrite Hc2.
      * rewrite register_cons_ok by done.
        rewrite childFor_setChild_ne by done. rewrite Hc1. cbn [fst snd].
        by rewrite setChild_comm.
Qed.

Lemma rootOf_insert_ne (ts : gmap string node) method method' root :
  method <> method' ->
  rootOf (Router (<[method := root]> ts)) method' = rootOf (Router ts) method'.
Proof. intros Hne. unfold rootOf. simpl. by rewrite lookup_insert_ne. Qed.

(** X7: the order in which routes are registered does not matter.  When two
    calls of [addRoute] with handlers return one after the other, they
    return in the other order as well, and the router comes out the same. *)
Theorem addRoute_commute (r r1 r2 : router) m1 p1 (h1 : HandleFunc)
    m2 p2 (h2 : HandleFunc) :
  addRoute r m1 p1 (Some h1) = (r1, Done tt) ->
  addRoute r1 m2 p2 (Some h2) = (r2, Done tt) ->
  exists r1', addRoute r m2 p2 (Some h2) = (r1', Done tt)
              /\ addRoute r1' m1 p1 (Some h1) = (r2, Done tt).
Proof.
  intros H1 H2.
  apply addRoute_Done in H1 as (Hw1 & n1 & Hreg1 & ->).
  apply addRoute_Done in H2 as (Hw2 & n2 & Hreg2 & ->).
  destruct r as [ts]. cbn [trees] in *.
  destruct (decide (m1 = m2)) as [<-|Hm].
  - rewrite rootOf_insert in Hreg2.
    destruct (register_commute p1 p2 h1 h2 _ _ _ _ _ Hreg1 Hreg2)
      as (n1' & Hreg2' & Hreg1').
    exists (Router (<[m1 := n1']> ts)). split.
    + by apply addRoute_Done_intro.
    + rewrite (addRoute_Done_intro _ m1 p1 (Some h1) n2);
        [|done|by rewrite rootOf_insert].
      cbn [trees]. by rewrite !insert_insert_eq.
  - rewrite rootOf_insert_ne in Hreg2 by done.
    exists (Router (<[m2 := n2]> ts)). split.
    + by apply addRoute_Done_intro.
    + rewrite (addRoute_Done_intro _ m1 p1 (Some h1) n1);
        [|done|by rewrite rootOf_insert_ne].
      cbn [trees]. by rewrite insert_insert_ne.
Qed.

(** X8: two routes registered one after the other under one method sit at
    different positions of the tree, and each keeps its own handler. *)
Theorem addRoute_two_routes (r r1 r2 : router) method p1 p2
    (h1 h2 : HandleFunc) :
  addRoute r method p1 (Some h1) = (r1, Done tt) ->
  addRoute r1 method p2 (Some h2) = (r2, Done tt) ->
  positionOf p1 <> positionOf p2
  /\ handlerAt r2 method (positionOf p1) = Some h1
  /\ handlerAt r2 method (positionOf p2) = Some h2.
Proof.
  intros H1 H2.
  pose proof (addRoute_handlerAt r method p1 (Some h1) method (positionOf p1))
    as Hat1.
  rewrite H1 in Hat1. cbn [fst snd isDone andb] in Hat1.
  rewrite bool_decide_eq_true_2 in Hat1 by done.
  assert (positionOf p1 <> positionOf p2) as Hne.
  { intros Heq. pose proof (addRoute_Done_free _ _ _ _ _ H2) as Hfree.
    rewrite <- Heq in Hfree. congruence. }
  split; [done|].
  pose proof (addRoute_handlerAt r1 method p2 (Some h2) method) as Hat2.
  rewrite H2 in Hat2. cbn [fst snd isDone andb] in Hat2. split.
  - rewrite Hat2, bool_decide_eq_false_2 by (by intros [_ ?]). done.
  - by rewrite Hat2, bool_decide_eq_true_2.
Qed.

(** ** Static routes *)

Lemma register_static fullPath segs h :
  forallb (fun seg => negb (String.eqb seg EmptyString)
                      && negb (isDynamic (slotOf seg))) segs = true ->
  forall n : node,
    (register fullPath n segs h).2
    = if notNil (handlerIn n (slotOf <$> segs))
      then Panicked (RouteConflict fullPath) else Done tt.
Proof.
  induction segs as [|seg rest IH]; intros Hall n.
  - rewrite register_nil, handlerIn_nil. by destruct (notNil (handler n)).
  - cbn [forallb] in Hall. apply andb_prop in Hall as [Hseg Hall].
    apply andb_prop in Hseg as [Hne Hst].
    apply negb_true_iff, String.eqb_neq in Hne. apply negb_true_iff in Hst.
    assert (clashFree n seg = true) as Hcf
      by (unfold clashFree; by destruct (slotOf seg)).
    rewrite register_cons_ok by done. cbn [snd fmap list_fmap].
    by rewrite IH, handlerIn_childFor.
Qed.

(** X14: a route made of literal segments never clashes with the wildcard,
    param and regex routes around it: [addRoute] returns unless the very
    path has its handler already, and then it panics with the duplicate
    conflict. *)
Theorem addRoute_static_route (r : router) method p h :
  wellShaped p = true ->
  forallb (fun seg => negb (String.eqb seg EmptyString)
                      && negb (isDynamic (slotOf seg))) (walkOf p) = true ->
  (addRoute r method p h).2
  = if notNil (handlerAt r method (positionOf p))
    then Panicked (if String.eqb p "/" then RootConflict else RouteConflict p)
    else Done tt.
Proof.
  intros Hw Hall. rewrite handlerAt_rootOf. unfold positionOf.
  pose proof (register_static p (walkOf p) h Hall (rootOf r method)) as Hreg.
  rewrite addRoute_eq, Hw. cbn [negb]. unfold walkOf in *.
  destruct (String.eqb p "/"); [|done].
  cbn [fmap list_fmap]. rewrite handlerIn_nil.
  by destruct (notNil (handler (rootOf r method))).
Qed.

End RegistrationFacts.

(** * Lookup *)

Section LookupFacts.

Context `{ext : Externals}.

Lemma findRoute_panics (r : router) method p :
  findRoute r method p = Panicked NotImplemented.
Proof. reflexivity. Qed.

Lemma childOf_panics (n : node) seg :
  childOf n seg = Panicked NotImplemented.
Proof. reflexivity. Qed.

(** C1: the lookup of route.go is not written.  Once [addRoute] has returned
    for a method, a path and a handler, [findRoute] on the same method and
    path panics with "implement me": it returns no result at all, and so
    neither the found flag nor a node that carries the handler, although the
    handler sits in the tree at the position of the path. *)
Theorem findRoute_not_implemented (r r1 : router) method p (h : HandleFunc) :
  addRoute r method p (Some h) = (r1, Done tt) ->
  findRoute r1 method p = Panicked NotImplemented
  /\ (forall res, findRoute r1 method p <> Done res)
  /\ handlerAt r1 method (positionOf p) = Some h.
Proof.
  intros Hadd. split; [apply findRoute_panics|]. split; [done|].
  pose proof (addRoute_handlerAt r method p (Some h) method (positionOf p))
    as Hat.
  rewrite Hadd in Hat. cbn [fst snd isDone andb] in Hat.
  by rewrite bool_decide_eq_true_2 in Hat.
Qed.

End LookupFacts.

(** * The captured parameters and the request context *)

Section ParamFacts.

Context `{ext : Externals}.

Lemma pathParams_addValue (m : matchInfo) key value :
  pathParams (addValue m key value)
  = Some (<[key := value]> (default ∅ (pathParams m))).
Proof.
  unfold addValue. destruct m as [x [mp|]]; simpl; [done|].
  by rewrite insert_singleton_eq, insert_empty.
Qed.

Lemma addValue_node (m : matchInfo) key value :
  mi_n (addValue m key value) = mi_n m.
Proof. unfold addValue. by destruct m as [x [mp|]]. Qed.

(** X9: [addValue] writes one parameter.  Afterwards the map is there (the
    [nil] map has been replaced), the name reads back the value, every other
    name reads as before (nothing, from the [nil] map), and the node is
    untouched. *)
Theorem addValue_lookup (m : matchInfo) key value :
  default ∅ (pathParams (addValue m key value)) !! key = Some value
  /\ (forall key', key' <> key ->
        default ∅ (pathParams (addValue m key value)) !! key'
        = default ∅ (pathParams m) !! key')
  /\ is_Some (pathParams (addValue m key value))
  /\ mi_n (addValue m key value) = mi_n m.
Proof.
  rewrite pathParams_addValue. simpl. split; [apply lookup_insert_eq|].
  split; [intros key' Hne; by apply lookup_insert_ne|].
  split; [eauto|]. apply addValue_node.
Qed.

Lemma addValue_eq (m : matchInfo) key value :
  addValue m key value
  = MatchInfo (mi_n m) (Some (<[key := value]> (default ∅ (pathParams m)))).
Proof.
  rewrite <- pathParams_addValue, <- (addValue_node m key value).
  by destruct (addValue m key value).
Qed.

(** X10: a name captured twice keeps the last value, and captures under
    different names do not depend on their order. *)
Theorem addValue_overwrite_commute (m : matchInfo) :
  (forall key v1 v2,
      addValue (addValue m key v1) key v2 = addValue m key v2)
  /\ (forall key1 key2 v1 v2, key1 <> key2 ->
        addValue (addValue m key1 v1) key2 v2
        = addValue (addValue m key2 v2) key1 v1).
Proof.
  split.
  - intros key v1 v2. rewrite !addValue_eq. simpl.
    by rewrite insert_insert_eq.
  - intros key1 key2 v1 v2 Hne. rewrite !addValue_eq. simpl.
    by rewrite insert_insert_ne.
Qed.

End ParamFacts.

Section ContextFacts.

Context `{ext : Externals} `{cext : ContextExternals}.

(** X11: what [addValue] captured is what [PathValue] hands out.  In a
    context whose [PathParams] are the parameters of a match after
    [addValue], the captured name gives its value with no error, and every
    other name gives what it gave before the capture. *)
Theorem PathValue_addValue (c : Context) (m : matchInfo) key value :
  PathParams c = pathParams (addValue m key value) ->
  PathValue c key = mkStringValue value None
  /\ (forall key', key' <> key ->
        PathValue c key'
        = PathValue (mkContext (Req c) (Resp c) (pathParams m)
                       (cacheQueryValues c)) key').
Proof.
  intros Hc. unfold PathValue.
  rewrite Hc, pathParams_addValue. simpl. split; [by rewrite lookup_insert_eq|].
  intros key' Hne. by rewrite lookup_insert_ne.
Qed.

(** X12: [PathValue] followed by [ToInt64].  A missing name, and any name
    when [PathParams] is [nil], gives zero and the not-found error, and the
    text is not parsed; a name that is present gives what
    [strconv.ParseInt] makes of its value, an empty value included. *)
Theorem PathValue_ToInt64 (c : Context) key :
  ToInt64 (PathValue c key)
  = match default ∅ (PathParams c) !! key with
    | Some v => ((parseInt v).1, ErrParse <$> (parseInt v).2)
    | None => (0%Z, Some ErrPathKey)
    end
  /\ (PathParams c = None -> ToInt64 (PathValue c key) = (0%Z, Some ErrPathKey))
  /\ (err (PathValue c key) = None <-> is_Some (default ∅ (PathParams c) !! key)).
Proof.
  unfold PathValue, ToInt64. split; [|split].
  - destruct (default ∅ (PathParams c) !! key) as [v|]; simpl; [|done].
    by destruct (parseInt v).
  - intros ->. simpl. by rewrite lookup_empty.
  - destruct (default ∅ (PathParams c) !! key) as [v|]; simpl.
    + split; eauto.
    + split; [done|]. by intros [? ?].
Qed.

(** X13: [QueryValue] parses the query once.  After a call that got to the
    query, the context holds the parsed values, the answer is read from
    them, and so is the answer of every later call, for any key and whatever
    request the context is then given.  The answer is the first value of
    the key, the not-found error for a missing key, and a runtime panic only
    for a key that holds an empty list of values. *)
Theorem QueryValue_cached (c c1 : Context) key res :
  QueryValue c key = (c1, res) ->
  res <> inl NilDereference ->
  exists vs,
    cacheQueryValues c1 = Some vs
    /\ res = lookupQuery vs key
    /\ (cacheQueryValues c = None ->
        exists rq, Req c = Some rq /\ urlQuery rq = Some vs)
    /\ (forall rq' key',
          QueryValue (set_Req c1 rq') key'
          = (set_Req c1 rq', lookupQuery vs key'))
    /\ (forall key',
          match vs !! key' with
          | None =>
              lookupQuery vs key'
              = inr (mkStringValue EmptyString (Some ErrQueryKey))
          | Some [] => lookupQuery vs key' = inl SliceIndex
          | Some (v :: _) => lookupQuery vs key' = inr (mkStringValue v None)
          end).
Proof.
  unfold QueryValue. intros Hq Hres.
  assert (forall vs : gmap string (list string), forall key',
    match vs !! key' with
    | None =>
        lookupQuery vs key'
        = inr (mkStringValue EmptyString (Some ErrQueryKey))
    | Some [] => lookupQuery vs key' = inl SliceIndex
    | Some (v :: _) => lookupQuery vs key' = inr (mkStringValue v None)
    end) as Hlook.
  { intros vs key'. unfold lookupQuery.
    by destruct (vs !! key') as [[|v l]|]. }
  destruct (cacheQueryValues c) as [vs|] eqn:Hcache.
  - simplify_eq. exists vs. split; [done|]. split; [done|].
    split; [done|]. split; [|apply Hlook].
    intros rq' key'. simpl. by rewrite Hcache.
  - destruct (Req c) as [rq|] eqn:Hreq; [|by simplify_eq].
    destruct (urlQuery rq) as [vs|] eqn:Hurl; [|by simplify_eq].
    simplify_eq. exists vs. split; [done|]. split; [done|].
    split; [eauto|]. split; [|apply Hlook]. done.
Qed.

End ContextFacts.

(** ** Concrete runs of the further properties *)

Example context_runs :
  let c := mkContext (Some {[ "page" := ["2"; "3"] ]}) None
             (Some {[ "id" := "42" ]}) None in
  ToInt64 (PathValue c "id") = (42%Z, None)
  /\ ToInt64 (PathValue c "name") = (0%Z, Some ErrPathKey)
  /\ (QueryValue c "page").2 = inr (mkStringValue "2" None)
  /\ (QueryValue c "size").2 = inr (mkStringValue EmptyString (Some ErrQueryKey))
  /\ (QueryValue (mkContext None None None None) "page").2
     = inl NilDereference.
Proof. intros c. repeat apply conj; reflexivity. Qed.

(** The one panic that leaves nodes behind, next to one that does not. *)
Example panic_runs :
  let r1 := (route newRouter "GET" "/user/:id" 1).1 in
  (route r1 "GET" "/user/*" 2).1 = r1
  /\ (route r1 "GET" "/shop//x" 2).1 <> r1.
Proof. split; [by vm_compute|]. vm_compute. discriminate. Qed.

Lemma addRoute_other_methods_witness :
  trees (route (route newRouter "GET" "/a" 1).1 "POST" "/b" 2).1 !! "GET"
  = trees (route newRouter "GET" "/a" 1).1 !! "GET".
Proof.
  apply (addRoute_other_methods (ext := literalExternals)
           (route newRouter "GET" "/a" 1).1 "POST" "/b" (Some 2) "GET").
  discriminate.
Defined.

Lemma addRoute_panic_unchanged_witness :
  (route (route newRouter "GET" "/user/:id" 1).1 "GET" "/user/*" 2).1
  = (route newRouter "GET" "/user/:id" 1).1.
Proof.
  apply (addRoute_panic_unchanged (ext := literalExternals)
           (route newRouter "GET" "/user/:id" 1).1 _
           "GET" "/user/*" (Some 2) StarHasParam).
  - vm_compute. reflexivity.
  - discriminate.
Defined.

Lemma addRoute_grows_witness :
  exists x',
    nodeAt (route (route newRouter "GET" "/a/b" 1).1 "GET" "/a/:id" 2).1
      "GET" [SlotStatic "a"] = Some x'
    /\ path x' = "a" /\ typ x' = nodeTypeStatic.
Proof.
  destruct (addRoute_grows (ext := literalExternals)
              (route newRouter "GET" "/a/b" 1).1 "GET" "/a/:id" (Some 2)
              "GET" [SlotStatic "a"]
              (set_children (ext := literalExternals)
                 (newNode nodeTypeStatic "a")
                 (Some {[ "b" := set_handler (ext := literalExternals)
                                   (newNode nodeTypeStatic "b") (Some 1) ]})))
    as (x' & Hx' & Hpath & Htyp & _).
  - vm_compute. reflexivity.
  - exists x'. split; [exact Hx'|]. split; [symmetry; exact Hpath|].
    symmetry. exact Htyp.
Defined.

Lemma reachable_tree_shape_witness :
  exists root,
    trees (route newRouter "GET" "/user/:id" 1).1 !! "GET" = Some root
    /\ path root = "/" /\ typ root = nodeTypeStatic /\ regExpr root = None.
Proof.
  assert (reachable (ext := literalExternals)
            (route newRouter "GET" "/user/:id" 1).1) as Hreach.
  { apply (reachable_add (ext := literalExternals)
             newRouter "GET" "/user/:id" (Some 1)).
    apply reachable_new. }
  destruct (trees (route newRouter "GET" "/user/:id" 1).1 !! "GET")
    as [root|] eqn:Hroot; [|vm_compute in Hroot; discriminate].
  exists root. split; [reflexivity|].
  exact (proj1 (reachable_tree_shape (ext := literalExternals) _ Hreach)
           "GET" root Hroot).
Defined.

Lemma addRoute_nil_handler_witness :
  addRoute (addRoute newRouter "GET" "/a" None).1 "GET" "/a" (Some 1)
  = route newRouter "GET" "/a" 1.
Proof.
  refine (proj2 (addRoute_nil_handler (ext := literalExternals)
                   newRouter _ "GET" "/a" _) (Some 1)).
  vm_compute. reflexivity.
Defined.

Lemma addRoute_commute_witness :
  exists r1',
    route newRouter "GET" "/b/:id" 2 = (r1', Done tt)
    /\ route r1' "GET" "/a" 1
       = ((route (route newRouter "GET" "/a" 1).1 "GET" "/b/:id" 2).1,
          Done tt).
Proof.
  apply (addRoute_commute (ext := literalExternals)
           newRouter (route newRouter "GET" "/a" 1).1 _
           "GET" "/a" 1 "GET" "/b/:id" 2).
  - vm_compute. reflexivity.
  - vm_compute. reflexivity.
Defined.

Lemma addRoute_two_routes_witness :
  positionOf "/user/:id" <> positionOf "/user/home"
  /\ handlerAt (route (route newRouter "GET" "/user/:id" 1).1
                  "GET" "/user/home" 2).1 "GET" (positionOf "/user/:id")
     = Some 1
  /\ handlerAt (route (route newRouter "GET" "/user/:id" 1).1
                  "GET" "/user/home" 2).1 "GET" (positionOf "/user/home")
     = Some 2.
Proof.
  apply (addRoute_two_routes (ext := literalExternals)
           newRouter (route newRouter "GET" "/user/:id" 1).1 _
           "GET" "/user/:id" "/user/home" 1 2).
  - vm_compute. reflexivity.
  - vm_compute. reflexivity.
Defined.

Lemma PathValue_addValue_witness :
  PathValue
    (mkContext None None
       (pathParams (addValue (MatchInfo emptyNode None) "id" "7")) None) "id"
  = mkStringValue "7" None.
Proof.
  refine (proj1 (PathValue_addValue (ext := literalExternals)
                   (cext := literalContextExternals)
                   _ (MatchInfo emptyNode None) "id" "7" _)).
  reflexivity.
Defined.

Lemma QueryValue_cached_witness :
  exists vs,
    cacheQueryValues
      (QueryValue (mkContext (Some {[ "page" := ["2"; "3"] ]}) None None None)
         "page").1 = Some vs
    /\ forall rq' key',
         QueryValue
           (set_Req
              (QueryValue
                 (mkContext (Some {[ "page" := ["2"; "3"] ]}) None None None)
                 "page").1 rq') key'
         = (set_Req
              (QueryValue
                 (mkContext (Some {[ "page" := ["2"; "3"] ]}) None None None)
                 "page").1 rq', lookupQuery vs key').
Proof.
  destruct (QueryValue_cached (cext := literalContextExternals)
              (mkContext (Some {[ "page" := ["2"; "3"] ]}) None None None)
              (QueryValue
                 (mkContext (Some {[ "page" := ["2"; "3"] ]}) None None None)
                 "page").1
              "page" (inr (mkStringValue "2" None)))
    as (vs & Hcache & _ & _ & Hlater & _).
  - vm_compute. reflexivity.
  - discriminate.
  - exists vs. split; [exact Hcache|exact Hlater].
Defined.

Lemma addRoute_static_route_witness :
  (route (route newRouter "GET" "/user/:id" 1).1 "GET" "/user/home" 2).2
  = Done tt.
Proof.
  apply (addRoute_static_route (ext := literalExternals)
           (route newRouter "GET" "/user/:id" 1).1
           "GET" "/user/home" (Some 2)).
  - reflexivity.
  - reflexivity.
Defined.

(** *** Lookup *)

Lemma findRoute_not_implemented_witness :
  findRoute (route newRouter "GET" "/user/home" 7).1 "GET" "/user/home"
  = Panicked NotImplemented
  /\ handlerAt (route newRouter "GET" "/user/home" 7).1 "GET"
       (positionOf "/user/home") = Some 7.
Proof.
  destruct (findRoute_not_implemented (ext := literalExternals)
              newRouter (route newRouter "GET" "/user/home" 7).1
              "GET" "/user/home" 7) as (Hpanic & _ & Hat).
  - vm_compute. reflexivity.
  - split; [exact Hpanic|exact Hat].
Defined.
